(** * The provider switchboard of claudecodeui, embedded in Rocq

    A shallow embedding of the CC-Switch part of the server:

    - [server/database/db.js]: the stores [ccProvidersDb], [ccPromptsDb]
      and [ccSpeedTestsDb] over the tables of [init.sql];
    - the complete CC-Switch route module: [readJsonFile], [writeJsonFile],
      [applyProviderConfig], the masking of [GET /providers], the view of
      [GET /env], the switch route and the two speed-test routes.

    SQL tables with a text primary key are finite maps from the key to
    the row (stdpp's [gmap]); JavaScript objects are association lists in
    insertion order; asynchronous code runs in a state monad over the
    database, the file system and the process environment, in which a
    computation may throw and may be interrupted after any number of
    file-system calls. *)

From Stdlib Require Import ZArith Ascii.
From stdpp Require Import base option strings pretty list gmap sorting.

Local Open Scope string_scope.

#[local] Set Warnings "-clear-no-such-hyp".

(** ** JavaScript values and objects *)

Module Js.

(** JSON values, as [JSON.parse] returns them. An absent property
    ([undefined]) is [None] at type [option json]. *)
#[warnings="-register-all"] Inductive json : Type :=
| JNull
| JBool (b : bool)
| JNum (n : Z)
| JStr (s : string)
| JArr (xs : list json)
| JObj (kvs : list (string * json)).

(** [ToBoolean]: what [if (v)], [v ? a : b], [v || d] and [v && w] test. *)
Definition truthy (v : option json) : bool :=
  match v with
  | None | Some JNull => false
  | Some (JBool b) => b
  | Some (JNum n) => negb (n =? 0)%Z
  | Some (JStr s) => negb (String.eqb s EmptyString)
  | Some (JArr _) | Some (JObj _) => true
  end.

(** A string-valued optional field under [field || d]. *)
Definition str_or (o : option string) (d : string) : string :=
  match o with
  | Some s => if decide (s = EmptyString) then d else s
  | None => d
  end.

(** A string-valued optional field under [field || null]. *)
Definition str_or_null (o : option string) : option string :=
  match o with
  | Some s => if decide (s = EmptyString) then None else Some s
  | None => None
  end.

(** A numeric optional field under [field || 0]. *)
Definition num_or_0 (o : option Z) : Z := default 0%Z o.

(** An object with string keys: its own properties in insertion order.
    (Keys that look like array indices are enumerated first by a
    JavaScript engine; none of the keys that the code below tests, adds
    or removes is of that kind.) *)
Abbreviation obj V := (list (string * V)).

Section Objects.
Context {V : Type}.

(** [o[k]] *)
Fixpoint obj_get (o : obj V) (k : string) : option V :=
  match o with
  | [] => None
  | (k', v) :: o' => if decide (k' = k) then Some v else obj_get o' k
  end.

(** [o[k] = v]: an existing property keeps its place, a new one is
    appended. *)
Fixpoint obj_set (o : obj V) (k : string) (v : V) : obj V :=
  match o with
  | [] => [(k, v)]
  | (k', v') :: o' =>
      if decide (k' = k) then (k, v) :: o' else (k', v') :: obj_set o' k v
  end.

(** [delete o[k]] *)
Definition obj_delete (o : obj V) (k : string) : obj V :=
  filter (λ kv, kv.1 ≠ k) o.

(** [Object.keys(o)] and [Object.entries(o)] *)
Definition obj_keys (o : obj V) : list string := o.*1.
Definition obj_entries (o : obj V) : list (string * V) := o.

(** [{ ...a, ...b }] once [a] and [b] are lists of own properties:
    the properties of [a], then those of [b], each one assigned. *)
Definition obj_assign (target source : obj V) : obj V :=
  foldl (λ t kv, obj_set t kv.1 kv.2) target source.

Definition obj_spread2 (a b : obj V) : obj V :=
  obj_assign (obj_assign [] a) b.
End Objects.

(** The decimal numeral of an array index, as a property key. *)
Definition index_key (i : nat) : string := pretty i.

(** The own enumerable properties that [{ ...v }] copies out of [v]:
    those of an object, the indexed elements of an array, the indexed
    characters of a string, and nothing for [undefined], [null],
    booleans and numbers. *)
Definition own_props (v : option json) : obj json :=
  match v with
  | Some (JObj kvs) => kvs
  | Some (JArr xs) => imap (λ i x, (index_key i, x)) xs
  | Some (JStr s) =>
      imap (λ i c, (index_key i, JStr (String c EmptyString)))
           (String.list_ascii_of_string s)
  | _ => []
  end.

(** An [env] object of a provider: string keys, string values. *)
Abbreviation env_map := (obj string).

Definition env_to_json (e : env_map) : obj json :=
  (λ kv, (kv.1, JStr kv.2)) <$> e.

(** [settings_config]: the reserved [env] object and the [configToml]
    payload; both may be absent. *)
Record config : Type := Config {
  cfg_env : option env_map;
  cfg_configToml : option string
}.

(** [{}] *)
Definition empty_config : config :=
  {| cfg_env := None; cfg_configToml := None |}.

End Js.
Export Js.

(** ** [ccProvidersDb]: the table [cc_providers] *)

Module ccProvidersDb.

(** A row of [cc_providers] without its primary key [id]. The TEXT
    column [settings_config] is held as the value that [JSON.parse]
    reads back from it; [is_current] is the 0/1 flag; the two
    timestamps are clock readings. *)
Record row : Type := Row {
  name : string;
  app_type : string;
  settings_config : config;
  website_url : option string;
  category : string;
  notes : option string;
  icon : option string;
  icon_color : string;
  is_current : bool;
  sort_index : Z;
  created_at : Z;
  updated_at : Z
}.

Definition with_is_current (b : bool) (r : row) : row :=
  {| name := name r; app_type := app_type r;
     settings_config := settings_config r; website_url := website_url r;
     category := category r; notes := notes r; icon := icon r;
     icon_color := icon_color r; is_current := b;
     sort_index := sort_index r; created_at := created_at r;
     updated_at := updated_at r |}.

(** The table, keyed by [id TEXT PRIMARY KEY]. *)
Abbreviation table := (gmap string row).

(** The object handed to [upsert]; [None] is an absent field. *)
Record provider_arg : Type := ProviderArg {
  arg_id : string;
  arg_name : option string;
  arg_app_type : option string;
  arg_settings_config : option config;
  arg_website_url : option string;
  arg_category : option string;
  arg_notes : option string;
  arg_icon : option string;
  arg_icon_color : option string;
  arg_is_current : option json;
  arg_sort_index : option Z
}.

(** [getById] *)
Definition getById (id : string) (t : table) : option row := t !! id.

(** The rows of one [app_type], as [(id, row)] pairs. *)
Definition rows_of (appType : string) (t : table) : list (string * row) :=
  map_to_list (filter (λ kr, app_type kr.2 = appType) t).

(** [ORDER BY sort_index ASC, created_at DESC] *)
Definition display_order (x y : string * row) : Prop :=
  (sort_index x.2 < sort_index y.2)%Z ∨
  (sort_index x.2 = sort_index y.2 ∧ (created_at y.2 ≤ created_at x.2)%Z).

#[global] Instance display_order_dec x y : Decision (display_order x y).
Proof. unfold display_order. apply _. Defined.

(** [getAll] *)
Definition getAll (appType : string) (t : table) : list (string * row) :=
  merge_sort display_order (rows_of appType t).

(** [getCurrent]: [WHERE app_type = ? AND is_current = 1 LIMIT 1] *)
Definition getCurrent (appType : string) (t : table) : option (string * row) :=
  head (map_to_list
          (filter (λ kr, app_type kr.2 = appType ∧ is_current kr.2 = true) t)).

(** The row that the INSERT of [upsert] proposes ([excluded] in the
    ON CONFLICT clause); [None] when [name] is missing, which the
    NOT NULL column refuses. *)
Definition excluded (p : provider_arg) (now : Z) : option row :=
  match arg_name p with
  | None => None
  | Some nm =>
      Some {| name := nm;
              app_type := default "claude" (arg_app_type p);
              settings_config := default empty_config (arg_settings_config p);
              website_url := str_or_null (arg_website_url p);
              category := str_or (arg_category p) "custom";
              notes := str_or_null (arg_notes p);
              icon := str_or_null (arg_icon p);
              icon_color := str_or (arg_icon_color p) "#6366f1";
              is_current := truthy (arg_is_current p);
              sort_index := num_or_0 (arg_sort_index p);
              created_at := now;
              updated_at := now |}
  end.

(** [ON CONFLICT(id) DO UPDATE SET ...]: every column of [excluded]
    named in the clause; [app_type] and [created_at] are not. *)
Definition on_conflict (old new : row) : row :=
  {| name := name new; app_type := app_type old;
     settings_config := settings_config new; website_url := website_url new;
     category := category new; notes := notes new; icon := icon new;
     icon_color := icon_color new; is_current := is_current new;
     sort_index := sort_index new; created_at := created_at old;
     updated_at := updated_at new |}.

(** [upsert]; [None] is the exception of a refused statement. *)
Definition upsert (p : provider_arg) (now : Z) (t : table) : option table :=
  new ← excluded p now;
  Some match t !! arg_id p with
       | None => <[arg_id p := new]> t
       | Some old => <[arg_id p := on_conflict old new]> t
       end.

(** [delete]: the table and [result.changes > 0]. (The results held for
    the provider in [cc_speed_tests] go with it, ON DELETE CASCADE; that
    table is modelled on its own below.) *)
Definition delete (id : string) (t : table) : table * bool :=
  (base.delete id t, bool_decide (is_Some (t !! id))).

(** [UPDATE cc_providers SET is_current = 0 WHERE app_type = ?] *)
Definition clear_current (appType : string) (t : table) : table :=
  (λ r, if decide (app_type r = appType) then with_is_current false r else r)
    <$> t.

(** [UPDATE cc_providers SET is_current = 1 WHERE id = ? AND app_type = ?] *)
Definition set_current (id appType : string) (t : table) : table :=
  alter (λ r, if decide (app_type r = appType)
              then with_is_current true r else r) id t.

(** [switchTo]: both statements in one transaction; it returns [true]. *)
Definition switchTo (id appType : string) (t : table) : table :=
  set_current id appType (clear_current appType t).

(** The ids of the providers of [appType] whose flag is set. *)
Definition current_ids (appType : string) (t : table) : gset string :=
  dom (filter (λ kr, app_type kr.2 = appType ∧ is_current kr.2 = true) t).

(** Invariant I1. *)
Definition single_current (t : table) : Prop :=
  ∀ appType, (size (current_ids appType t) ≤ 1)%nat.

(** Store operations and their sequences. *)
Inductive op : Type :=
| Upsert (p : provider_arg) (now : Z)
| SwitchTo (id appType : string)
| Delete (id : string).

Definition step (o : op) (t : table) : table :=
  match o with
  | Upsert p now => default t (upsert p now t)
  | SwitchTo id appType => switchTo id appType t
  | Delete id => (delete id t).1
  end.

Definition run (ops : list op) (t : table) : table :=
  foldl (λ t o, step o t) t ops.

(** An operation that leaves the flags to [switchTo]: any operation
    but an upsert whose [is_current] field is truthy. *)
Definition flag_free (o : op) : Prop :=
  match o with
  | Upsert p _ => truthy (arg_is_current p) = false
  | _ => True
  end.

(** [updateSortOrder]: one [UPDATE cc_providers SET sort_index = ? WHERE
    id = ?] for each [{ id, sortIndex }] of the list, in its order, in
    one transaction. *)
Definition with_sort_index (i : Z) (r : row) : row :=
  {| name := name r; app_type := app_type r;
     settings_config := settings_config r; website_url := website_url r;
     category := category r; notes := notes r; icon := icon r;
     icon_color := icon_color r; is_current := is_current r;
     sort_index := i; created_at := created_at r;
     updated_at := updated_at r |}.

Definition updateSortOrder (updates : list (string * Z)) (t : table) : table :=
  foldl (λ t u, alter (with_sort_index u.2) u.1 t) t updates.

End ccProvidersDb.

(** ** [ccPromptsDb]: the table [cc_prompts] *)

Module ccPromptsDb.

Record row : Type := Row {
  app_type : string;
  name : string;
  content : string;
  description : option string;
  is_enabled : bool;
  sort_index : Z;
  created_at : Z;
  updated_at : Z
}.

Definition with_is_enabled (b : bool) (r : row) : row :=
  {| app_type := app_type r; name := name r; content := content r;
     description := description r; is_enabled := b;
     sort_index := sort_index r; created_at := created_at r;
     updated_at := updated_at r |}.

Abbreviation table := (gmap string row).

Record prompt_arg : Type := PromptArg {
  arg_id : string;
  arg_app_type : option string;
  arg_name : option string;
  arg_content : option string;
  arg_description : option string;
  arg_is_enabled : option json;
  arg_sort_index : option Z
}.

(** [getEnabled]: [WHERE app_type = ? AND is_enabled = 1 LIMIT 1] *)
Definition getEnabled (appType : string) (t : table) : option (string * row) :=
  head (map_to_list
          (filter (λ kr, app_type kr.2 = appType ∧ is_enabled kr.2 = true) t)).

(** [upsert]: [name] and [content] are NOT NULL; on a conflict
    [app_type] and [created_at] stay. *)
Definition upsert (p : prompt_arg) (now : Z) (t : table) : option table :=
  nm ← arg_name p;
  body ← arg_content p;
  let new :=
    {| app_type := default "claude" (arg_app_type p); name := nm;
       content := body; description := str_or_null (arg_description p);
       is_enabled := truthy (arg_is_enabled p);
       sort_index := num_or_0 (arg_sort_index p);
       created_at := now; updated_at := now |} in
  Some match t !! arg_id p with
       | None => <[arg_id p := new]> t
       | Some old =>
           <[arg_id p := {| app_type := app_type old; name := nm;
                            content := body;
                            description := description new;
                            is_enabled := is_enabled new;
                            sort_index := sort_index new;
                            created_at := created_at old;
                            updated_at := now |}]> t
       end.

Definition delete (id : string) (t : table) : table * bool :=
  (base.delete id t, bool_decide (is_Some (t !! id))).

(** [disableAll]: [UPDATE cc_prompts SET is_enabled = 0 WHERE app_type = ?] *)
Definition disableAll (appType : string) (t : table) : table :=
  (λ r, if decide (app_type r = appType) then with_is_enabled false r else r)
    <$> t.

(** [enable]: in one transaction, the statement of [disableAll] and
    then [UPDATE cc_prompts SET is_enabled = 1 WHERE id = ?]. *)
Definition enable (id appType : string) (t : table) : table :=
  alter (with_is_enabled true) id (disableAll appType t).

(** The ids of the enabled prompts of [appType]. *)
Definition enabled_ids (appType : string) (t : table) : gset string :=
  dom (filter (λ kr, app_type kr.2 = appType ∧ is_enabled kr.2 = true) t).

(** Invariant I2. *)
Definition single_enabled (t : table) : Prop :=
  ∀ appType, (size (enabled_ids appType t) ≤ 1)%nat.

(** A sequence of [enable] calls, each with its [(id, appType)]. *)
Definition enable_all (calls : list (string * string)) (t : table) : table :=
  foldl (λ t c, enable c.1 c.2 t) t calls.

End ccPromptsDb.

(** ** [ccSpeedTestsDb]: the table [cc_speed_tests] *)

Module ccSpeedTestsDb.

(** The [status] column. *)
Inductive probe_status : Type := operational | degraded | failed | pending.

#[global] Instance probe_status_eq_dec : EqDecision probe_status.
Proof. solve_decision. Defined.

(** A row; [tested_at] is the reading of [CURRENT_TIMESTAMP] at the
    insertion (SQLite compares the timestamps it produces in the order
    of time). *)
Record row : Type := Row {
  id : Z;
  provider_id : string;
  app_type : string;
  response_time_ms : Z;
  http_status : Z;
  status : probe_status;
  tested_at : Z
}.

#[global] Instance row_eq_dec : EqDecision row.
Proof. solve_decision. Defined.

(** The rows in the order of insertion and the AUTOINCREMENT counter:
    the largest [id] handed out so far. *)
Record table : Type := Table {
  rows : list row;
  last_id : Z
}.

Definition empty : table := {| rows := []; last_id := 0 |}.

(** [id INTEGER PRIMARY KEY AUTOINCREMENT]: no two rows share an id
    and no id exceeds the counter. *)
Definition wf (t : table) : Prop :=
  NoDup (id <$> rows t) ∧ Forall (λ r, (id r ≤ last_id t)%Z) (rows t).

(** [save]: the table and [lastInsertRowid]. (The foreign key on
    [provider_id] holds at both call sites: the provider has just been
    read from [cc_providers].) *)
Definition save (providerId appType : string) (responseTimeMs httpStatus : Z)
    (st : probe_status) (now : Z) (t : table) : table * Z :=
  let i := (last_id t + 1)%Z in
  ({| rows := rows t ++ [ {| id := i; provider_id := providerId;
                             app_type := appType;
                             response_time_ms := responseTimeMs;
                             http_status := httpStatus; status := st;
                             tested_at := now |} ];
      last_id := i |}, i).

(** [PARTITION BY provider_id] *)
Definition partition (p : string) (rs : list row) : list row :=
  filter (λ r, provider_id r = p) rs.

Definition providers (rs : list row) : list string :=
  remove_dups (provider_id <$> rs).

(** [ORDER BY tested_at DESC] *)
Definition newer_first (x y : row) : Prop := (tested_at y ≤ tested_at x)%Z.

#[global] Instance newer_first_dec x y : Decision (newer_first x y).
Proof. unfold newer_first. apply _. Defined.







(** Recording one result after another for one provider; each item is
    the measured time, the HTTP status, the status and the clock. *)
Definition save_all (p appType : string)
    (results : list (Z * Z * probe_status * Z)) (t : table) : table :=
  foldl (λ t x, (save p appType x.1.1.1 x.1.1.2 x.1.2 x.2 t).1) t results.

(** [SELECT MAX(id) FROM cc_speed_tests WHERE app_type = ? GROUP BY
    provider_id]: the largest id among the rows of each provider that has
    rows of the app type. *)
Definition max_id (rs : list row) : option Z :=
  foldr (λ r acc, Some (from_option (Z.max (id r)) (id r) acc)) None rs.

Definition latest_ids (appType : string) (rs : list row) : list Z :=
  let of_app := filter (λ r, app_type r = appType) rs in
  omap (λ p, max_id (partition p of_app)) (providers of_app).

(** [getLatest]: the rows of the app type whose id is one of those, each
    joined with the name of its provider in [cc_providers] (a row whose
    provider is not there is not returned), [ORDER BY st.tested_at DESC]. *)
Definition getLatest (appType : string)
    (cc_providers : gmap string ccProvidersDb.row) (t : table)
  : list (row * string) :=
  merge_sort (λ x y, newer_first x.1 y.1)
    (omap (λ r,
       if decide (app_type r = appType ∧ id r ∈ latest_ids appType (rows t))
       then (λ p, (r, ccProvidersDb.name p)) <$> cc_providers !! provider_id r
       else None)
       (rows t)).

End ccSpeedTestsDb.

(** ** [ccMcpServersDb]: the table [cc_mcp_servers] *)

Module ccMcpServersDb.

(** The apps that have a column [enabled_<app>]. *)
Inductive app : Type := claude | codex | gemini.

#[global] Instance app_eq_dec : EqDecision app.
Proof. solve_decision. Defined.


(** A row without its primary key [id]. The TEXT columns [args] and
    [env] are held as the array and the object that [JSON.parse] reads
    back from them. *)
Record row : Type := Row {
  name : string;
  command : string;
  args : list json;
  env : obj json;
  enabled_claude : bool;
  enabled_codex : bool;
  enabled_gemini : bool;
  description : option string;
  sort_index : Z;
  created_at : Z;
  updated_at : Z
}.

Abbreviation table := (gmap string row).



(** The object handed to [upsert]; [None] is an absent field. [args]
    and [env] are given as an array and an object. *)
Record server_arg : Type := ServerArg {
  arg_id : string;
  arg_name : option string;
  arg_command : option string;
  arg_args : option (list json);
  arg_env : option (obj json);
  arg_enabled_claude : option json;
  arg_enabled_codex : option json;
  arg_enabled_gemini : option json;
  arg_description : option string;
  arg_sort_index : option Z
}.

(** [upsert]: [name] and [command] are NOT NULL; on a conflict every
    column but [created_at] is replaced. *)
Definition upsert (s : server_arg) (now : Z) (t : table) : option table :=
  nm ← arg_name s;
  cmd ← arg_command s;
  Some (<[arg_id s :=
            {| name := nm; command := cmd;
               args := default [] (arg_args s);
               env := default [] (arg_env s);
               enabled_claude := truthy (arg_enabled_claude s);
               enabled_codex := truthy (arg_enabled_codex s);
               enabled_gemini := truthy (arg_enabled_gemini s);
               description := str_or_null (arg_description s);
               sort_index := num_or_0 (arg_sort_index s);
               created_at := from_option created_at now (t !! arg_id s);
               updated_at := now |}]> t).

(** [delete]: the table and [result.changes > 0]. *)
Definition delete (id : string) (t : table) : table * bool :=
  (base.delete id t, bool_decide (is_Some (t !! id))).


(** [ORDER BY sort_index ASC, created_at DESC] *)
Definition display_order (x y : string * row) : Prop :=
  (sort_index x.2 < sort_index y.2)%Z ∨
  (sort_index x.2 = sort_index y.2 ∧ (created_at y.2 ≤ created_at x.2)%Z).

#[global] Instance display_order_dec x y : Decision (display_order x y).
Proof. unfold display_order. apply _. Defined.

(** [getAll] *)
Definition getAll (t : table) : list (string * row) :=
  merge_sort display_order (map_to_list t).


End ccMcpServersDb.

(** ** [ccSkillReposDb]: the table [cc_skill_repos] *)

Module ccSkillReposDb.

Record row : Type := Row {
  id : Z;
  owner : string;
  name : string;
  branch : string;
  is_enabled : bool;
  created_at : Z
}.

#[global] Instance row_eq_dec : EqDecision row.
Proof. solve_decision. Defined.

(** The rows and the AUTOINCREMENT counter. *)
Record table : Type := Table {
  rows : list row;
  last_id : Z
}.

Definition empty : table := {| rows := []; last_id := 0 |}.

(** [id INTEGER PRIMARY KEY AUTOINCREMENT] and [UNIQUE(owner, name)]. *)
Definition wf (t : table) : Prop :=
  NoDup (id <$> rows t) ∧ Forall (λ r, (id r ≤ last_id t)%Z) (rows t) ∧
  NoDup ((λ r, (owner r, name r)) <$> rows t).

Definition same_repo (o n : string) (r : row) : Prop := owner r = o ∧ name r = n.

#[global] Instance same_repo_dec o n r : Decision (same_repo o n r).
Proof. unfold same_repo. apply _. Defined.

(** [add(owner, name, branch = 'main')]: [INSERT OR REPLACE INTO
    cc_skill_repos (owner, name, branch) VALUES (?, ?, ?)]. The row that
    holds the pair already is deleted and the new row gets the next id
    and the defaults of its other columns. [owner] and [name] are NOT
    NULL. The result is the table and [lastInsertRowid]. *)
Definition add (o n b : option string) (now : Z) (t : table)
  : option (table * Z) :=
  o ← o; n ← n;
  let i := (last_id t + 1)%Z in
  Some ({| rows := filter (λ r, ¬ same_repo o n r) (rows t) ++
                   [ {| id := i; owner := o; name := n;
                        branch := default "main" b; is_enabled := true;
                        created_at := now |} ];
           last_id := i |}, i).

(** [remove]: the table and [result.changes > 0]. *)
Definition remove (o n : string) (t : table) : table * bool :=
  ({| rows := filter (λ r, ¬ same_repo o n r) (rows t); last_id := last_id t |},
   bool_decide (Exists (same_repo o n) (rows t))).

(** [toggle]: [UPDATE cc_skill_repos SET is_enabled = ? WHERE id = ?] *)
Definition toggle (i : Z) (flag : option json) (t : table) : table :=
  {| rows := (λ r, if decide (id r = i)
                   then {| id := id r; owner := owner r; name := name r;
                           branch := branch r; is_enabled := truthy flag;
                           created_at := created_at r |}
                   else r) <$> rows t;
     last_id := last_id t |}.

(** [ORDER BY created_at DESC] *)
Definition newer_first (x y : row) : Prop := (created_at y ≤ created_at x)%Z.

#[global] Instance newer_first_dec x y : Decision (newer_first x y).
Proof. unfold newer_first. apply _. Defined.

(** [getAll] *)
Definition getAll (t : table) : list row := merge_sort newer_first (rows t).

End ccSkillReposDb.

(** ** [apiKeysDb] and [credentialsDb]: the tables [api_keys] and
    [user_credentials] *)

Module userDb.

(** The columns of [users] that the statements below read, keyed by
    the primary key [id]. *)
Record row : Type := Row {
  username : string;
  is_active : bool
}.

Abbreviation table := (gmap Z row).

End userDb.

Module apiKeysDb.

Record row : Type := Row {
  id : Z;
  user_id : Z;
  key_name : string;
  api_key : string;
  created_at : Z;
  last_used : option Z;
  is_active : bool
}.

(** The rows and the AUTOINCREMENT counter. *)
Record table : Type := Table {
  rows : list row;
  last_id : Z
}.

Definition empty : table := {| rows := []; last_id := 0 |}.

(** [id INTEGER PRIMARY KEY AUTOINCREMENT] and [api_key TEXT UNIQUE]. *)
Definition wf (t : table) : Prop :=
  NoDup (id <$> rows t) ∧ Forall (λ r, (id r ≤ last_id t)%Z) (rows t) ∧
  NoDup (api_key <$> rows t).

(** [createApiKey], for the key [apiKey] that [generateApiKey] drew: the
    INSERT is refused when the user is not in [users] (FOREIGN KEY) or
    the key is in the table already (UNIQUE). The result is the table
    and [lastInsertRowid]. *)
Definition createApiKey (userId : Z) (keyName apiKey : string) (now : Z)
    (users : userDb.table) (t : table) : option (table * Z) :=
  if decide (is_Some (users !! userId) ∧ apiKey ∉ api_key <$> rows t) then
    let i := (last_id t + 1)%Z in
    Some ({| rows := rows t ++
                     [ {| id := i; user_id := userId; key_name := keyName;
                          api_key := apiKey; created_at := now;
                          last_used := None; is_active := true |} ];
             last_id := i |}, i)
  else None.

(** [getApiKeys]: [WHERE user_id = ? ORDER BY created_at DESC] *)
Definition newer_first (x y : row) : Prop := (created_at y ≤ created_at x)%Z.

#[global] Instance newer_first_dec x y : Decision (newer_first x y).
Proof. unfold newer_first. apply _. Defined.

Definition getApiKeys (userId : Z) (t : table) : list row :=
  merge_sort newer_first (filter (λ r, user_id r = userId) (rows t)).

(** [WHERE ak.api_key = ? AND ak.is_active = 1 AND u.is_active = 1]
    over [api_keys ak JOIN users u ON ak.user_id = u.id] *)
Definition valid (apiKey : string) (users : userDb.table) (r : row) : Prop :=
  api_key r = apiKey ∧ is_active r = true ∧
  userDb.is_active <$> users !! user_id r = Some true.

#[global] Instance valid_dec apiKey users r : Decision (valid apiKey users r).
Proof. unfold valid. apply _. Defined.

Definition with_last_used (now : Z) (r : row) : row :=
  {| id := id r; user_id := user_id r; key_name := key_name r;
     api_key := api_key r; created_at := created_at r;
     last_used := Some now; is_active := is_active r |}.

(** What [validateApiKey] returns for a key it accepts. *)
Record validated : Type := Validated {
  v_id : Z;
  v_username : string;
  v_api_key_id : Z
}.

(** [validateApiKey]: the row of the join, if there is one, and the
    table with [last_used] of that key set. *)
Definition validateApiKey (apiKey : string) (now : Z) (users : userDb.table)
    (t : table) : table * option validated :=
  match list_find (valid apiKey users) (rows t) with
  | Some (_, r) =>
      ({| rows := (λ r', if decide (id r' = id r)
                         then with_last_used now r' else r') <$> rows t;
          last_id := last_id t |},
       (λ u, {| v_id := user_id r; v_username := userDb.username u;
                v_api_key_id := id r |}) <$> users !! user_id r)
  | None => (t, None)
  end.

Definition owned (userId apiKeyId : Z) (r : row) : Prop :=
  id r = apiKeyId ∧ user_id r = userId.

#[global] Instance owned_dec userId apiKeyId r : Decision (owned userId apiKeyId r).
Proof. unfold owned. apply _. Defined.

(** [deleteApiKey]: [DELETE FROM api_keys WHERE id = ? AND user_id = ?];
    the table and [result.changes > 0]. *)
Definition deleteApiKey (userId apiKeyId : Z) (t : table) : table * bool :=
  ({| rows := filter (λ r, ¬ owned userId apiKeyId r) (rows t);
      last_id := last_id t |},
   bool_decide (Exists (owned userId apiKeyId) (rows t))).

Definition with_is_active (b : bool) (r : row) : row :=
  {| id := id r; user_id := user_id r; key_name := key_name r;
     api_key := api_key r; created_at := created_at r;
     last_used := last_used r; is_active := b |}.

(** [toggleApiKey]: [UPDATE api_keys SET is_active = ? WHERE id = ? AND
    user_id = ?] with [isActive ? 1 : 0]; the table and
    [result.changes > 0]. *)
Definition toggleApiKey (userId apiKeyId : Z) (isActive : option json)
    (t : table) : table * bool :=
  ({| rows := (λ r, if decide (owned userId apiKeyId r)
                    then with_is_active (truthy isActive) r else r)
              <$> rows t;
      last_id := last_id t |},
   bool_decide (Exists (owned userId apiKeyId) (rows t))).

End apiKeysDb.

Module credentialsDb.

Record row : Type := Row {
  id : Z;
  user_id : Z;
  credential_name : string;
  credential_type : string;
  credential_value : string;
  description : option string;
  created_at : Z;
  is_active : bool
}.

Record table : Type := Table {
  rows : list row;
  last_id : Z
}.

(** [createCredential]; the INSERT is refused when the user is not in
    [users]. *)
Definition createCredential (userId : Z)
    (credentialName credentialType credentialValue : string)
    (description : option string) (now : Z) (users : userDb.table)
    (t : table) : option (table * Z) :=
  if decide (is_Some (users !! userId)) then
    let i := (last_id t + 1)%Z in
    Some ({| rows := rows t ++
                     [ {| id := i; user_id := userId;
                          credential_name := credentialName;
                          credential_type := credentialType;
                          credential_value := credentialValue;
                          description := description;
                          created_at := now; is_active := true |} ];
             last_id := i |}, i)
  else None.

Definition newer_first (x y : row) : Prop := (created_at y ≤ created_at x)%Z.

#[global] Instance newer_first_dec x y : Decision (newer_first x y).
Proof. unfold newer_first. apply _. Defined.

(** [WHERE user_id = ? AND credential_type = ? AND is_active = 1] *)
Definition active_of (userId : Z) (credentialType : string) (r : row) : Prop :=
  user_id r = userId ∧ credential_type r = credentialType ∧
  is_active r = true.

#[global] Instance active_of_dec userId credentialType r : Decision (active_of userId credentialType r).
Proof. unfold active_of. apply _. Defined.

(** [getActiveCredential]: [ORDER BY created_at DESC LIMIT 1], then
    [row?.credential_value || null]. *)
Definition getActiveCredential (userId : Z) (credentialType : string)
    (t : table) : option string :=
  match head (merge_sort newer_first
                (filter (active_of userId credentialType) (rows t))) with
  | Some r => str_or_null (Some (credential_value r))
  | None => None
  end.

Definition owned (userId credentialId : Z) (r : row) : Prop :=
  id r = credentialId ∧ user_id r = userId.

#[global] Instance owned_dec userId credentialId r : Decision (owned userId credentialId r).
Proof. unfold owned. apply _. Defined.

(** [deleteCredential] *)
Definition deleteCredential (userId credentialId : Z) (t : table)
  : table * bool :=
  ({| rows := filter (λ r, ¬ owned userId credentialId r) (rows t);
      last_id := last_id t |},
   bool_decide (Exists (owned userId credentialId) (rows t))).

Definition with_is_active (b : bool) (r : row) : row :=
  {| id := id r; user_id := user_id r;
     credential_name := credential_name r;
     credential_type := credential_type r;
     credential_value := credential_value r;
     description := description r; created_at := created_at r;
     is_active := b |}.

(** [toggleCredential] *)
Definition toggleCredential (userId credentialId : Z)
    (isActive : option json) (t : table) : table * bool :=
  ({| rows := (λ r, if decide (owned userId credentialId r)
                    then with_is_active (truthy isActive) r else r)
              <$> rows t;
      last_id := last_id t |},
   bool_decide (Exists (owned userId credentialId) (rows t))).

End credentialsDb.

(** ** The CC-Switch route module *)

Module CcSwitch.

(** *** The world the routes act on *)

(** The content of a file: [JsonText v] is a text that [JSON.parse]
    maps to [v], as [JSON.stringify(v, null, 2)] is; [PlainText s] is
    the text [s] taken as it is. The only files parsed here are the two
    [settings.json]; a plain text found there is one that [JSON.parse]
    rejects, as it rejects the empty file. *)
Inductive fdata : Type :=
| JsonText (v : json)
| PlainText (s : string).

Record database : Type := Database {
  providers : ccProvidersDb.table;
  prompts : ccPromptsDb.table;
  speed_tests : ccSpeedTestsDb.table
}.

Record world : Type := World {
  db : database;
  files : gmap string fdata;
  dirs : gset string;
  process_env : gmap string string
}.

Definition with_db (d : database) (w : world) : world :=
  {| db := d; files := files w; dirs := dirs w;
     process_env := process_env w |}.
Definition with_files (f : gmap string fdata) (w : world) : world :=
  {| db := db w; files := f; dirs := dirs w;
     process_env := process_env w |}.
Definition with_dirs (d : gset string) (w : world) : world :=
  {| db := db w; files := files w; dirs := d;
     process_env := process_env w |}.
Definition with_process_env (e : gmap string string) (w : world) : world :=
  {| db := db w; files := files w; dirs := dirs w; process_env := e |}.
Definition with_providers (t : ccProvidersDb.table) (d : database) : database :=
  {| providers := t; prompts := prompts d; speed_tests := speed_tests d |}.
Definition with_speed_tests (t : ccSpeedTestsDb.table) (d : database)
  : database :=
  {| providers := providers d; prompts := prompts d; speed_tests := t |}.

(** *** Asynchronous code that may throw or be interrupted

    A computation receives the number of file-system calls the process
    still lives for. Each call takes one of them; at zero the process
    is gone and the world stays as it is. *)
Inductive outcome (A : Type) : Type :=
| Done (a : A)
| Thrown (message : string)
| Interrupted.
Arguments Done {A} a.
Arguments Thrown {A} message.
Arguments Interrupted {A}.

Definition M (A : Type) : Type := nat → world → nat * world * outcome A.

Definition ret {A} (a : A) : M A := λ n w, (n, w, Done a).

Definition bind {A B} (m : M A) (f : A → M B) : M B :=
  λ n w,
    match m n w with
    | (n', w', Done a) => f a n' w'
    | (n', w', Thrown e) => (n', w', Thrown e)
    | (n', w', Interrupted) => (n', w', Interrupted)
    end.

Definition throw {A} (message : string) : M A := λ n w, (n, w, Thrown message).

(** [try { m } catch (error) { h(error.message) }] *)
Definition try_catch {A} (m : M A) (h : string → M A) : M A :=
  λ n w,
    match m n w with
    | (n', w', Thrown e) => h e n' w'
    | r => r
    end.

(** One call into the file system. *)
Definition fs_call {A} (f : world → world * outcome A) : M A :=
  λ n w,
    match n with
    | O => (O, w, Interrupted)
    | S n' => let '(w', r) := f w in (n', w', r)
    end.

(** Synchronous work on the database or the process. *)
Definition sync {A} (f : world → world * A) : M A :=
  λ n w, let '(w', a) := f w in (n, w', Done a).

Declare Scope js_scope.
Delimit Scope js_scope with js.
Notation "'let*' x := m 'in' k" := (bind m (λ x, k))
  (at level 10, x name, m at level 100, k at level 200) : js_scope.
Notation "m ;;; k" := (bind m (λ _, k))
  (at level 100, k at level 200, right associativity) : js_scope.
Local Open Scope js_scope.

(** The world and the outcome when the process lives for [n] calls. *)
Definition run_for {A} (n : nat) (m : M A) (w : world) : world * outcome A :=
  let '(_, w', r) := m n w in (w', r).

(** *** Paths *)

(** [path.join(a, b)] for a directory and a plain relative name. *)
Definition path_join (a b : string) : string := a +:+ "/" +:+ b.

(** [path.dirname]: the path up to its last separator. *)
Fixpoint after_separator (cs : list Ascii.ascii) : list Ascii.ascii :=
  match cs with
  | [] => []
  | c :: cs' => if decide (c = "/"%char) then cs' else after_separator cs'
  end.

Definition dirname (p : string) : string :=
  String.string_of_list_ascii
    (reverse (after_separator (reverse (String.list_ascii_of_string p)))).

Section Paths.
(** [os.homedir()] *)
Variable HOME_DIR : string.

Definition CLAUDE_DIR : string := path_join HOME_DIR ".claude".
Definition CODEX_DIR : string := path_join HOME_DIR ".codex".
Definition GEMINI_DIR : string := path_join HOME_DIR ".gemini".
Definition CLAUDE_SETTINGS : string := path_join CLAUDE_DIR "settings.json".
Definition CODEX_CONFIG : string := path_join CODEX_DIR "config.toml".
Definition GEMINI_SETTINGS : string := path_join GEMINI_DIR "settings.json".
End Paths.

(** *** File-system calls *)

(** [fs.mkdir(dir, { recursive: true })] *)
Definition ensureDir (dir : string) : M unit :=
  fs_call (λ w, (with_dirs ({[dir]} ∪ dirs w) w, Done ())).

(** [fs.readFile(filePath, 'utf8')] *)
Definition readFile (filePath : string) : M fdata :=
  fs_call (λ w, match files w !! filePath with
                | Some c => (w, Done c)
                | None => (w, Thrown "ENOENT")
                end).

(** [fs.writeFile(filePath, data)] opens the file itself with flag ['w'],
    which creates it or empties it, and then writes the data into it:
    two calls into the file system. *)
Definition writeFile (filePath : string) (data : fdata) : M unit :=
  fs_call (λ w,
    (with_files (<[filePath := PlainText EmptyString]> (files w)) w,
     Done ())) ;;;
  fs_call (λ w, (with_files (<[filePath := data]> (files w)) w, Done ())).

(** [fs.rename(from, to)]: [to] is replaced in one step. *)
Definition rename (from to : string) : M unit :=
  fs_call (λ w, match files w !! from with
                | Some c =>
                    (with_files (<[to := c]> (delete from (files w))) w,
                     Done ())
                | None => (w, Thrown "ENOENT")
                end).

(** [readJsonFile]: any failure of the read or of the parse gives [{}]. *)
Definition readJsonFile (filePath : string) : M json :=
  try_catch
    (let* content := readFile filePath in
     match content with
     | JsonText v => ret v
     | PlainText _ => throw "SyntaxError"
     end)
    (λ _, ret (JObj [])).

(** [writeJsonFile] *)
Definition writeJsonFile (filePath : string) (data : json) : M unit :=
  ensureDir (dirname filePath) ;;;
  let tempFile := filePath +:+ ".tmp" in
  writeFile tempFile (JsonText data) ;;;
  rename tempFile filePath.

(** *** [applyProviderConfig] *)

(** [settings.env = { ...settings.env, ...env }] followed by what
    [JSON.stringify(settings)] keeps of it. In a module (strict mode)
    the statement throws on [null] and on a number, a string or a
    boolean; on an array the property is set and not serialised. *)
Definition assign_env (settings : json) (env : env_map) : option json :=
  match settings with
  | JObj kvs =>
      Some (JObj (obj_set kvs "env"
                    (JObj (obj_spread2 (own_props (obj_get kvs "env"))
                                       (env_to_json env)))))
  | JArr xs => Some (JArr xs)
  | _ => None
  end.

(** [for (const [key, value] of Object.entries(env)) process.env[key] = value] *)
Definition update_process_env (env : env_map) : M unit :=
  sync (λ w, (with_process_env
                (foldl (λ pe kv, <[kv.1 := kv.2]> pe) (process_env w)
                       (obj_entries env)) w, ())).

(** A string under [if (s)]: present and not empty. *)
Definition nonempty (o : option string) : option string :=
  match o with
  | Some s => if decide (s = EmptyString) then None else Some s
  | None => None
  end.

(** [Object.entries(env).map(([k, v]) => `${k}=${v}`).join('\n')] *)
Definition env_lines (env : env_map) : string :=
  String.concat (String "010"%char EmptyString)
                ((λ kv, kv.1 +:+ "=" +:+ kv.2) <$> obj_entries env).

Definition applyProviderConfig (HOME_DIR : string)
    (provider : ccProvidersDb.row) (appType : string) : M unit :=
  let config := ccProvidersDb.settings_config provider in
  let env := default [] (cfg_env config) in
  if decide (appType = "claude") then
    ensureDir (CLAUDE_DIR HOME_DIR) ;;;
    let* settings := readJsonFile (CLAUDE_SETTINGS HOME_DIR) in
    match assign_env settings env with
    | None => throw "TypeError"
    | Some settings' =>
        writeJsonFile (CLAUDE_SETTINGS HOME_DIR) settings' ;;;
        update_process_env env
    end
  else if decide (appType = "codex") then
    ensureDir (CODEX_DIR HOME_DIR) ;;;
    match nonempty (cfg_configToml config) with
    | Some toml => writeFile (CODEX_CONFIG HOME_DIR) (PlainText toml)
    | None => ret ()
    end ;;;
    match nonempty (obj_get env "OPENAI_API_KEY") with
    | Some key =>
        let authPath := path_join (CODEX_DIR HOME_DIR) "auth.json" in
        writeJsonFile authPath (JObj [("api_key", JStr key)])
    | None => ret ()
    end
  else if decide (appType = "gemini") then
    ensureDir (GEMINI_DIR HOME_DIR) ;;;
    let* settings := readJsonFile (GEMINI_SETTINGS HOME_DIR) in
    match assign_env settings env with
    | None => throw "TypeError"
    | Some settings' =>
        writeJsonFile (GEMINI_SETTINGS HOME_DIR) settings' ;;;
        let envPath := path_join (GEMINI_DIR HOME_DIR) ".env" in
        writeFile envPath (PlainText (env_lines env))
    end
  else ret ().

(** *** Responses *)

(** [res.json(body)] or [res.status(code).json({ error })]. *)
Inductive response (A : Type) : Type :=
| Ok (body : A)
| Failure (code : Z) (error : string).
Arguments Ok {A} body.
Arguments Failure {A} code error.

(** [a || b || c] over optional strings: the first operand that is
    present and not empty, else the last operand. *)
Fixpoint first_truthy (operands : list (option string)) : option string :=
  match operands with
  | [] => None
  | [v] => v
  | v :: rest =>
      match nonempty v with
      | Some s => Some s
      | None => first_truthy rest
      end
  end.

(** [config.env?.KEY] *)
Definition env_field (c : config) (key : string) : option string :=
  e ← cfg_env c; obj_get e key.

(** *** Masking in [GET /providers] *)

(** [s.includes(sub)] *)
Fixpoint includes (s sub : string) : bool :=
  String.prefix sub s ||
  match s with
  | EmptyString => false
  | String _ s' => includes s' sub
  end.

(** [key.includes('TOKEN') || key.includes('KEY') || key.includes('SECRET')] *)
Definition sensitive (key : string) : bool :=
  includes key "TOKEN" || includes key "KEY" || includes key "SECRET".

(** [value && value.length > 12]. A character of a string here stands
    for a UTF-16 code unit of the JavaScript string; the two agree on
    ASCII values. *)
Definition long_value (value : string) : bool :=
  negb (String.eqb value EmptyString) && (12 <? String.length value)%nat.

(** [value.substring(0, 8) + '...' + value.substring(value.length - 4)] *)
Definition abbreviate (value : string) : string :=
  String.substring 0 8 value +:+ "..." +:+
  String.substring (String.length value - 4)
                   (String.length value - (String.length value - 4)) value.

(** The body of the loop over [Object.keys(maskedConfig.env)]. *)
Definition mask_key (env : env_map) (key : string) : env_map :=
  if sensitive key then
    match obj_get env key with
    | Some value =>
        if long_value value
        then obj_delete (obj_set env (key +:+ "_MASKED") (abbreviate value))
                        key
        else env
    | None => env
    end
  else env.

(** [maskedConfig.env = { ...maskedConfig.env }] and the loop over the
    keys it has at that moment. *)
Definition mask_env (env : env_map) : env_map :=
  let copy := obj_assign [] env in
  foldl mask_key copy (obj_keys copy).

Definition mask_config (c : config) : config :=
  {| cfg_env := mask_env <$> cfg_env c;
     cfg_configToml := cfg_configToml c |}.

(** An element of the [providers] array of the response: the row, with
    [settings_config] replaced, [baseUrl] and [model]. *)
Record provider_view : Type := ProviderView {
  pv_id : string;
  pv_row : ccProvidersDb.row;
  pv_settings_config : config;
  pv_baseUrl : option string;
  pv_model : option string
}.

Definition get_providers (app : option string) (d : database)
  : response (list provider_view) :=
  let appType := str_or app "claude" in
  Ok ((λ p,
        let config := ccProvidersDb.settings_config p.2 in
        {| pv_id := p.1; pv_row := p.2;
           pv_settings_config := mask_config config;
           pv_baseUrl :=
             first_truthy [env_field config "ANTHROPIC_BASE_URL";
                           env_field config "OPENAI_BASE_URL";
                           env_field config "GOOGLE_GEMINI_BASE_URL"];
           pv_model :=
             first_truthy [env_field config "ANTHROPIC_MODEL";
                           env_field config "OPENAI_MODEL";
                           env_field config "GEMINI_MODEL"] |})
        <$> ccProvidersDb.getAll appType (providers d)).

(** *** [GET /env] *)

(** The body of the loop over [Object.entries(config.env)]. *)
Definition safe_entry (safeEnv : env_map) (kv : string * string) : env_map :=
  let '(key, value) := kv in
  if sensitive key then
    if long_value value
    then obj_set safeEnv key (abbreviate value)
    else safeEnv
  else obj_set safeEnv key value.

Definition safe_env (env : env_map) : env_map :=
  foldl safe_entry [] (obj_entries env).

Definition get_env (app : option string) (d : database) : response env_map :=
  let appType := str_or app "claude" in
  match ccProvidersDb.getCurrent appType (providers d) with
  | None => Ok []
  | Some provider =>
      match cfg_env (ccProvidersDb.settings_config provider.2) with
      | Some env => Ok (safe_env env)
      | None => Ok []
      end
  end.

(** *** [POST /providers/:id/switch] *)

Record switched : Type := Switched {
  sw_id : string;
  sw_name : string;
  sw_baseUrl : option string;
  sw_model : option string
}.

Definition post_providers_switch (HOME_DIR : string) (id : string)
    (app : option string) : M (response switched) :=
  try_catch
    (let appType := str_or app "claude" in
     let* provider :=
       sync (λ w, (w, ccProvidersDb.getById id (providers (db w)))) in
     match provider with
     | None => ret (Failure 404 "Provider not found")
     | Some provider =>
         sync (λ w,
           (with_db (with_providers
                       (ccProvidersDb.switchTo id appType (providers (db w)))
                       (db w)) w, ())) ;;;
         applyProviderConfig HOME_DIR provider appType ;;;
         let config := ccProvidersDb.settings_config provider in
         ret (Ok {| sw_id := id;
                    sw_name := ccProvidersDb.name provider;
                    sw_baseUrl :=
                      first_truthy [env_field config "ANTHROPIC_BASE_URL";
                                    env_field config "OPENAI_BASE_URL"];
                    sw_model :=
                      first_truthy [env_field config "ANTHROPIC_MODEL";
                                    env_field config "OPENAI_MODEL"] |})
     end)
    (λ message, ret (Failure 500 message)).

(** *** The speed-test routes *)

(** How [await fetch(...)] ends under the 10 s timer: a response with
    its status code, the [AbortError] of [controller.abort()], or any
    other rejection (DNS, refused connection, TLS). *)
Inductive fetch_outcome : Type :=
| Responded (status : Z)
| AbortError
| FetchError.

(** What one probe observes: the fetch, [Date.now()] before and after
    it, and the [CURRENT_TIMESTAMP] of the insertion. *)
Record observation : Type := Observation {
  fetched : fetch_outcome;
  startTime : Z;
  endTime : Z;
  timestamp : Z
}.

(** The outside world of the probes: the observation made when the
    provider with the given id is probed at the given URL with the
    given key. *)
Definition network : Type := string → string → string → observation.

Record probe_result : Type := ProbeResult {
  pr_providerId : string;
  pr_providerName : string;
  pr_status : ccSpeedTestsDb.probe_status;
  pr_responseTime : Z;
  pr_httpStatus : Z
}.

(** The endpoint and the key of [POST /speed-test]. *)
Definition probe_target (app : string) (env : env_map) : string * option string :=
  if decide (app = "codex") then
    (str_or (obj_get env "OPENAI_BASE_URL")
            "https://api.openai.com/v1/chat/completions",
     obj_get env "OPENAI_API_KEY")
  else if decide (app = "gemini") then
    (str_or (obj_get env "GOOGLE_GEMINI_BASE_URL")
            "https://generativelanguage.googleapis.com/v1beta/models",
     obj_get env "GOOGLE_API_KEY")
  else
    (match nonempty (obj_get env "ANTHROPIC_BASE_URL") with
     | Some base => base +:+ "/v1/messages"
     | None => "https://api.anthropic.com/v1/messages"
     end,
     first_truthy [obj_get env "ANTHROPIC_AUTH_TOKEN";
                   obj_get env "ANTHROPIC_API_KEY"]).

(** The [try]/[catch] around the fetch in [POST /speed-test]:
    [status] and [httpStatus]. *)
Definition classify (f : fetch_outcome) : ccSpeedTestsDb.probe_status * Z :=
  match f with
  | Responded code =>
      (if (code <? 500)%Z then ccSpeedTestsDb.operational
       else ccSpeedTestsDb.degraded, code)
  | AbortError => (ccSpeedTestsDb.degraded, 0%Z)
  | FetchError => (ccSpeedTestsDb.failed, 0%Z)
  end.

Definition post_speed_test (net : network) (providerId : string)
    (app : option string) (d : database) : database * response probe_result :=
  let app := default "claude" app in
  match ccProvidersDb.getById providerId (providers d) with
  | None => (d, Failure 404 "Provider not found")
  | Some provider =>
      let env := default [] (cfg_env (ccProvidersDb.settings_config provider)) in
      let '(testUrl, apiKey) := probe_target app env in
      let o := net providerId testUrl (str_or apiKey EmptyString) in
      let '(status, httpStatus) := classify (fetched o) in
      let responseTime := (endTime o - startTime o)%Z in
      (with_speed_tests
         (ccSpeedTestsDb.save providerId app responseTime httpStatus status
                              (timestamp o) (speed_tests d)).1 d,
       Ok {| pr_providerId := providerId;
             pr_providerName := ccProvidersDb.name provider;
             pr_status := status; pr_responseTime := responseTime;
             pr_httpStatus := httpStatus |})
  end.




(** *** The prompt routes *)

Definition with_prompts (t : ccPromptsDb.table) (d : database) : database :=
  {| providers := providers d; prompts := t; speed_tests := speed_tests d |}.

(** [settings[field] = v] followed by what [JSON.stringify(settings)]
    keeps of it: as for [env], the statement throws on [null] and on a
    number, a string or a boolean, and a property set on an array is not
    serialised. *)
Definition assign_field (settings : json) (field : string) (v : json)
  : option json :=
  match settings with
  | JObj kvs => Some (JObj (obj_set kvs field v))
  | JArr xs => Some (JArr xs)
  | _ => None
  end.

(** [delete settings[field]] for a field that no array, string, number
    or boolean has of its own: it throws on [null] only. *)
Definition delete_field (settings : json) (field : string) : option json :=
  match settings with
  | JObj kvs => Some (JObj (obj_delete kvs field))
  | JNull => None
  | other => Some other
  end.

(** [POST /prompts/:id/enable] *)
Definition post_prompts_enable (HOME_DIR : string) (id : string)
    (app : option string) : M (response unit) :=
  try_catch
    (let appType := str_or app "claude" in
     sync (λ w,
       (with_db (with_prompts
                   (ccPromptsDb.enable id appType (prompts (db w))) (db w)) w,
        ())) ;;;
     let* prompt :=
       sync (λ w, (w, ccPromptsDb.getEnabled appType (prompts (db w)))) in
     match prompt with
     | Some p =>
         if decide (appType = "claude") then
           let* settings := readJsonFile (CLAUDE_SETTINGS HOME_DIR) in
           match assign_field settings "systemPrompt"
                              (JStr (ccPromptsDb.content p.2)) with
           | None => throw "TypeError"
           | Some settings' =>
               writeJsonFile (CLAUDE_SETTINGS HOME_DIR) settings' ;;;
               ret (Ok ())
           end
         else ret (Ok ())
     | None => ret (Ok ())
     end)
    (λ message, ret (Failure 500 message)).

(** [POST /prompts/disable-all] *)
Definition post_prompts_disable_all (HOME_DIR : string) (app : option string)
  : M (response unit) :=
  try_catch
    (let appType := str_or app "claude" in
     sync (λ w,
       (with_db (with_prompts
                   (ccPromptsDb.disableAll appType (prompts (db w))) (db w)) w,
        ())) ;;;
     if decide (appType = "claude") then
       let* settings := readJsonFile (CLAUDE_SETTINGS HOME_DIR) in
       match delete_field settings "systemPrompt" with
       | None => throw "TypeError"
       | Some settings' =>
           writeJsonFile (CLAUDE_SETTINGS HOME_DIR) settings' ;;;
           ret (Ok ())
       end
     else ret (Ok ()))
    (λ message, ret (Failure 500 message)).

(** *** The MCP routes *)






(** *** Default providers, export and import *)












End CcSwitch.

(** ** The routes over the database of the CC-Switch app *)

(** The table [providers] of [~/.cc-switch/cc-switch.db], which two
    route modules open: the read-only integration and the first
    version of the routes. *)
Module CcSwitchApp.

(** The text of the column [settings_config]: one that [JSON.parse]
    accepts, with the object it gives, or one that it rejects. *)
Inductive config_text : Type :=
| Parsed (c : config)
| Unparsable.

(** The columns that the routes below read or write. *)
Record row : Type := Row {
  id : string;
  app_type : string;
  name : string;
  settings_config : config_text;
  website_url : option string;
  is_current : bool
}.

(** The rows in the order in which a SELECT walks them. No key is
    assumed: the table belongs to the other program. *)
Abbreviation table := (list row).

Definition with_is_current (b : bool) (r : row) : row :=
  {| id := id r; app_type := app_type r; name := name r;
     settings_config := settings_config r; website_url := website_url r;
     is_current := b |}.

(** [UPDATE providers SET is_current = 0 WHERE app_type = ?] and
    [UPDATE providers SET is_current = 1 WHERE id = ? AND app_type = ?] *)
Definition set_current (providerId appType : string) (t : table) : table :=
  (λ r, if decide (id r = providerId ∧ app_type r = appType)
        then with_is_current true r else r) <$>
  ((λ r, if decide (app_type r = appType)
         then with_is_current false r else r) <$> t).

(** [SELECT ... WHERE id = ? AND app_type = ?] with [.get()] *)
Definition get_provider (providerId appType : string) (t : table)
  : option row :=
  snd <$> list_find (λ r, id r = providerId ∧ app_type r = appType) t.

(** [SELECT ... WHERE app_type = ? AND is_current = 1] with [.get()] *)
Definition get_current (appType : string) (t : table) : option row :=
  snd <$> list_find (λ r, app_type r = appType ∧ is_current r = true) t.

(** The ids of the current providers of an app type. *)
Definition current_ids (appType : string) (t : table) : list string :=
  id <$> filter (λ r, app_type r = appType ∧ is_current r = true) t.

End CcSwitchApp.

(** *** The read-only integration *)

Module Integration.
Import CcSwitch CcSwitchApp.
Local Open Scope js_scope.

(** [applyProviderConfig(provider)], which always writes the settings
    of Claude. *)
Definition applyProviderConfig (HOME_DIR : string) (config : config)
  : M unit :=
  let env := default [] (cfg_env config) in
  ensureDir (CLAUDE_DIR HOME_DIR) ;;;
  let* settings := readJsonFile (CLAUDE_SETTINGS HOME_DIR) in
  match assign_env settings env with
  | None => throw "TypeError"
  | Some settings' =>
      writeJsonFile (CLAUDE_SETTINGS HOME_DIR) settings' ;;;
      update_process_env env
  end.

(** [JSON.parse(p.settings_config || '{}')] in a [try] whose [catch]
    gives [{}]. *)
Definition parse_or_empty (c : config_text) : config :=
  match c with
  | Parsed c => c
  | Unparsable => empty_config
  end.

(** [POST /providers/:id/switch]. The database of the app is [None]
    when its file is not there. All statements run before the first
    [await]: the result is the table they leave and what the route
    goes on to do with the files. *)
Definition post_providers_switch (HOME_DIR : string) (providerId : string)
    (app : option string) (x : option table)
  : option table * M (response switched) :=
  let appType := str_or app "claude" in
  match x with
  | None => (None, ret (Failure 500 "CC-Switch not installed"))
  | Some t =>
      match get_provider providerId appType t with
      | None => (Some t, ret (Failure 404 "Provider not found"))
      | Some provider =>
          let config := parse_or_empty (settings_config provider) in
          (Some (set_current providerId appType t),
           try_catch
             (applyProviderConfig HOME_DIR config ;;;
              ret (Ok {| sw_id := id provider;
                         sw_name := name provider;
                         sw_baseUrl :=
                           first_truthy
                             [env_field config "ANTHROPIC_BASE_URL";
                              env_field config "OPENAI_BASE_URL";
                              website_url provider];
                         sw_model :=
                           first_truthy
                             [env_field config "ANTHROPIC_MODEL";
                              env_field config "OPENAI_MODEL"] |}))
             (λ message, ret (Failure 500 message)))
      end
  end.

End Integration.

(** *** The first version of the routes: [server/routes/cc-switch.js] *)

Module Legacy.
Import CcSwitch CcSwitchApp.
Local Open Scope js_scope.

Section Paths.
Variable HOME_DIR : string.

Definition CC_SWITCH_DIR : string := path_join HOME_DIR ".cc-switch".
Definition CC_SWITCH_SETTINGS : string :=
  path_join CC_SWITCH_DIR "settings.json".
End Paths.

(** [safeEnv[key] = value] on an object made by [{}], for a string
    [value]: the accessor [__proto__] ignores it. *)
Definition assign_string (o : env_map) (key value : string) : env_map :=
  if decide (key = "__proto__") then o else obj_set o key value.

(** The body of the loop of [GET /env]. *)
Definition safe_entry (safeEnv : env_map) (kv : string * string) : env_map :=
  let '(key, value) := kv in
  if includes key "TOKEN" || includes key "KEY"
  then assign_string safeEnv key (abbreviate value)
  else assign_string safeEnv key value.

Definition safe_env (env : env_map) : env_map :=
  foldl safe_entry [] (obj_entries env).

(** [let config = {}; try { config = JSON.parse(...) } catch {}] *)
Definition parse_or_empty (c : config_text) : config :=
  match c with
  | Parsed c => c
  | Unparsable => empty_config
  end.

(** [GET /env] *)
Definition get_env (x : option table) : response env_map :=
  match x with
  | None => Failure 500 "cc-switch is not installed"
  | Some t =>
      match get_current "claude" t with
      | None => Ok []
      | Some provider =>
          match cfg_env (parse_or_empty (settings_config provider)) with
          | Some env => Ok (safe_env env)
          | None => Ok []
          end
      end
  end.

(** What [POST /switch/:providerId] does once the database is closed. *)
Definition write_settings (HOME_DIR providerId : string) (provider : row)
    (config : config) : M (response switched) :=
  try_catch
    (try_catch
       (let* settings := readJsonFile (CC_SWITCH_SETTINGS HOME_DIR) in
        match assign_field settings "currentProviderClaude"
                           (JStr providerId) with
        | None => throw "TypeError"
        | Some settings' =>
            writeFile (CC_SWITCH_SETTINGS HOME_DIR) (JsonText settings')
        end)
       (λ _, ret ()) ;;;
     let* failure :=
       try_catch
         (ensureDir (CLAUDE_DIR HOME_DIR) ;;;
          let* claudeSettings := readJsonFile (CLAUDE_SETTINGS HOME_DIR) in
          match assign_env claudeSettings (default [] (cfg_env config)) with
          | None => throw "TypeError"
          | Some claudeSettings' =>
              let tempFile := CLAUDE_SETTINGS HOME_DIR +:+ ".tmp" in
              writeFile tempFile (JsonText claudeSettings') ;;;
              rename tempFile (CLAUDE_SETTINGS HOME_DIR) ;;;
              ret None
          end)
         (λ message, ret (Some message)) in
     match failure with
     | Some _ => ret (Failure 500 "Failed to write Claude settings")
     | None =>
         match cfg_env config with
         | Some env => update_process_env env
         | None => ret ()
         end ;;;
         ret (Ok {| sw_id := id provider;
                    sw_name := name provider;
                    sw_baseUrl := env_field config "ANTHROPIC_BASE_URL";
                    sw_model := env_field config "ANTHROPIC_MODEL" |})
     end)
    (λ message, ret (Failure 500 message)).

(** [POST /switch/:providerId]: the table that the statements leave
    (the two updates run in one transaction) and what follows. *)
Definition post_switch (HOME_DIR : string) (providerId : string)
    (x : option table) : option table * M (response switched) :=
  match x with
  | None => (None, ret (Failure 500 "cc-switch is not installed"))
  | Some t =>
      match get_provider providerId "claude" t with
      | None => (Some t, ret (Failure 404 "Provider not found"))
      | Some provider =>
          match settings_config provider with
          | Unparsable =>
              (Some t, ret (Failure 400 "Invalid provider configuration"))
          | Parsed config =>
              (Some (set_current providerId "claude" t),
               write_settings HOME_DIR providerId provider config)
          end
      end
  end.

End Legacy.

(** ** Properties

    The statements of the specification that the theorems refer to, in
    its words, and the invariant of the masking loop. *)

Module Spec.
Import CcSwitch.




(** The settings document that [readJsonFile] finds at a path, when it
    is one: [{}] for a missing file and for a text that does not parse,
    the object for a file that holds one. *)
Definition settings_document (w : world) (filePath : string)
  : option (obj json) :=
  match files w !! filePath with
  | None | Some (PlainText _) => Some []
  | Some (JsonText (JObj kvs)) => Some kvs
  | Some (JsonText _) => None
  end.



End Spec.

(** Properties of the provider store that the theorems on export and
    import refer to. *)
Module Invariants.
Import ccProvidersDb.

(** A row as [upsert] writes it: no column holds the empty string where
    [upsert] would have written NULL or the default. *)
Definition normalised (r : row) : Prop :=
  website_url r ≠ Some EmptyString ∧ category r ≠ EmptyString ∧
  notes r ≠ Some EmptyString ∧ icon r ≠ Some EmptyString ∧
  icon_color r ≠ EmptyString.



End Invariants.

(** ** Scenarios

    Concrete stores, environments and worlds on which the theorems
    below are exercised. *)

Module Scenarios.
Import ccProvidersDb.

(** A provider argument with a name and an app type, and the given
    [is_current] field. *)
Definition provider_of (id appType : string) (flag : option json)
  : provider_arg :=
  {| arg_id := id; arg_name := Some id; arg_app_type := Some appType;
     arg_settings_config := None; arg_website_url := None;
     arg_category := None; arg_notes := None; arg_icon := None;
     arg_icon_color := None; arg_is_current := flag;
     arg_sort_index := None |}.

(** Two upserts that both carry [is_current: true]. *)
Definition two_flagged : list op :=
  [Upsert (provider_of "a" "claude" (Some (JBool true))) 1;
   Upsert (provider_of "b" "claude" (Some (JBool true))) 2].

(** Providers [a] and [b] of claude and [x] of codex, without flags. *)
Definition three_providers : list op :=
  [Upsert (provider_of "a" "claude" None) 1;
   Upsert (provider_of "b" "claude" None) 2;
   Upsert (provider_of "x" "codex" None) 3].

(** ... then a switch to [a], and a switch to an id that is not there. *)
Definition switch_to_ghost : list op :=
  (three_providers ++ [SwitchTo "a" "claude"; SwitchTo "ghost" "claude"])%list.

(** ... or switches to [a] and to [b], and the deletion of [a]. *)
Definition switch_and_delete : list op :=
  (three_providers ++
   [SwitchTo "a" "claude"; SwitchTo "b" "claude"; Delete "a"])%list.

(** The store in which [a] is the current provider of claude. *)
Definition a_is_current : table :=
  run (three_providers ++ [SwitchTo "a" "claude"])%list ∅.

(** The world around that store: no files yet, an empty process
    environment. *)
Definition a_is_current_world : CcSwitch.world :=
  {| CcSwitch.db :=
       {| CcSwitch.providers := a_is_current;
          CcSwitch.prompts := ∅;
          CcSwitch.speed_tests := ccSpeedTestsDb.empty |};
     CcSwitch.files := ∅;
     CcSwitch.dirs := ∅;
     CcSwitch.process_env := ∅ |}.

(** Prompts [P1] and [P2] of codex and [Q] of claude, none enabled. *)
Definition prompt_of (id appType : string) : ccPromptsDb.prompt_arg :=
  {| ccPromptsDb.arg_id := id;
     ccPromptsDb.arg_app_type := Some appType;
     ccPromptsDb.arg_name := Some id;
     ccPromptsDb.arg_content := Some "You are a helpful assistant.";
     ccPromptsDb.arg_description := None;
     ccPromptsDb.arg_is_enabled := None;
     ccPromptsDb.arg_sort_index := None |}.

Definition three_prompts : ccPromptsDb.table :=
  foldl (λ t p, default t (ccPromptsDb.upsert p 1 t)) ∅
        [prompt_of "P1" "codex"; prompt_of "P2" "codex"; prompt_of "Q" "claude"].

(** [P1] is enabled for codex; then [P2], a prompt of codex, is enabled
    with the app type claude. *)
Definition enable_across : list (string * string) :=
  [("P1", "codex"); ("P2", "claude")].





(** Rows and worlds for the projection onto the config files. *)
Definition provider_row (id appType : string) (c : config) : row :=
  {| name := id; app_type := appType; settings_config := c;
     website_url := None; category := "custom"; notes := None; icon := None;
     icon_color := "#6366f1"; is_current := false; sort_index := 0;
     created_at := 0; updated_at := 0 |}.

Definition world_with_files (f : gmap string CcSwitch.fdata) : CcSwitch.world :=
  {| CcSwitch.db :=
       {| CcSwitch.providers := ∅; CcSwitch.prompts := ∅;
          CcSwitch.speed_tests := ccSpeedTestsDb.empty |};
     CcSwitch.files := f; CcSwitch.dirs := ∅; CcSwitch.process_env := ∅ |}.

(** The merge scenario of the specification. *)
Definition bar_baz_provider : row :=
  provider_row "merge" "claude"
    {| cfg_env := Some [("BAR", "9"); ("BAZ", "3")];
       cfg_configToml := None |}.

Definition foo_bar_settings : obj json :=
  [("env", JObj [("FOO", JStr "1"); ("BAR", JStr "2")])].

Definition foo_bar_world : CcSwitch.world :=
  world_with_files
    {[ "/home/u/.claude/settings.json" := CcSwitch.JsonText (JObj foo_bar_settings) ]}.

(** A codex provider with a TOML payload and a key, and a world in
    which codex has a config file. *)
Definition codex_provider : row :=
  provider_row "codex-1" "codex"
    {| cfg_env := Some [("OPENAI_API_KEY", "sk-new")];
       cfg_configToml := Some "model = gpt-5" |}.

Definition codex_world : CcSwitch.world :=
  world_with_files
    {[ "/home/u/.codex/config.toml" := CcSwitch.PlainText "model = o3" ]}.

(** A gemini provider and a world in which gemini has its two files. *)
Definition gemini_provider : row :=
  provider_row "gemini-1" "gemini"
    {| cfg_env := Some [("GEMINI_API_KEY", "new-key")];
       cfg_configToml := None |}.

Definition gemini_world : CcSwitch.world :=
  world_with_files
    {[ "/home/u/.gemini/settings.json" := CcSwitch.JsonText (JObj []);
       "/home/u/.gemini/.env" := CcSwitch.PlainText "GEMINI_API_KEY=old-key" ]}.

(** Results recorded for provider [a] at the times 1, 2, ... *)
Definition results_at (times : list nat)
  : list (Z * Z * ccSpeedTestsDb.probe_status * Z) :=
  (λ i, (120%Z, 200%Z, ccSpeedTestsDb.operational, Z.of_nat i)) <$> times.

Definition fifteen_results : ccSpeedTestsDb.table :=
  ccSpeedTestsDb.save_all "a" "claude" (results_at (seq 1 15))
                          ccSpeedTestsDb.empty.

(** The store of [a_is_current] with ten results held for [a]. *)
Definition ten_results_db : CcSwitch.database :=
  {| CcSwitch.providers := a_is_current;
     CcSwitch.prompts := ∅;
     CcSwitch.speed_tests :=
       ccSpeedTestsDb.save_all "a" "claude" (results_at (seq 1 10))
                               ccSpeedTestsDb.empty |}.


Definition healthy_network : CcSwitch.network :=
  λ _ _ _, {| CcSwitch.fetched := CcSwitch.Responded 200;
              CcSwitch.startTime := 1000; CcSwitch.endTime := 1085;
              CcSwitch.timestamp := 20 |}.

(** The three prompts in a world whose settings file of Claude holds a
    theme and an older system prompt. *)
Definition prompts_world : CcSwitch.world :=
  {| CcSwitch.db :=
       {| CcSwitch.providers := ∅; CcSwitch.prompts := three_prompts;
          CcSwitch.speed_tests := ccSpeedTestsDb.empty |};
     CcSwitch.files :=
       {[ "/home/u/.claude/settings.json" :=
            CcSwitch.JsonText (JObj [("theme", JStr "dark");
                                     ("systemPrompt", JStr "Be brief.")]) ]};
     CcSwitch.dirs := ∅; CcSwitch.process_env := ∅ |}.





(** Two skill repositories, the first of them disabled. *)
Definition two_repos : ccSkillReposDb.table :=
  {| ccSkillReposDb.rows :=
       [ {| ccSkillReposDb.id := 1; ccSkillReposDb.owner := "anthropics";
            ccSkillReposDb.name := "skills"; ccSkillReposDb.branch := "main";
            ccSkillReposDb.is_enabled := false;
            ccSkillReposDb.created_at := 1 |};
         {| ccSkillReposDb.id := 2; ccSkillReposDb.owner := "acme";
            ccSkillReposDb.name := "tools"; ccSkillReposDb.branch := "dev";
            ccSkillReposDb.is_enabled := true;
            ccSkillReposDb.created_at := 2 |} ];
     ccSkillReposDb.last_id := 2 |}.

(** Two users with one API key each. *)
Definition two_users : userDb.table :=
  {[ 1%Z := {| userDb.username := "alice"; userDb.is_active := true |};
     2%Z := {| userDb.username := "bob"; userDb.is_active := true |} ]}.

Definition api_key_of (id user : Z) (key : string) : apiKeysDb.row :=
  {| apiKeysDb.id := id; apiKeysDb.user_id := user;
     apiKeysDb.key_name := "cli"; apiKeysDb.api_key := key;
     apiKeysDb.created_at := id; apiKeysDb.last_used := None;
     apiKeysDb.is_active := true |}.

Definition two_keys : apiKeysDb.table :=
  {| apiKeysDb.rows := [api_key_of 1 1 "ck_a"; api_key_of 2 2 "ck_b"];
     apiKeysDb.last_id := 2 |}.

End Scenarios.

(** * Theorems *)

(** ** JavaScript strings and objects *)

Section Strings.
Implicit Types (s : string).

Lemma append_cons c s1 s2 : String c s1 +:+ s2 = String c (s1 +:+ s2).
Proof. reflexivity. Qed.

Lemma length_append s1 s2 :
  String.length (s1 +:+ s2) = (String.length s1 + String.length s2)%nat.
Proof.
  induction s1 as [|c s1 IH]; [done|].
  rewrite append_cons. simpl. by rewrite IH.
Qed.

Lemma append_assoc s1 s2 s3 : (s1 +:+ s2) +:+ s3 = s1 +:+ (s2 +:+ s3).
Proof.
  induction s1 as [|c s1 IH]; [done|]. rewrite !append_cons. by rewrite IH.
Qed.


Lemma append_neq_self s1 s2 : s2 ≠ EmptyString → s1 +:+ s2 ≠ s1.
Proof.
  intros Hne H. apply (f_equal String.length) in H.
  rewrite length_append in H. destruct s2; [done|]. simpl in H. lia.
Qed.
End Strings.

Section ObjectLemmas.
Context {V : Type}.
Implicit Types (o : obj V) (k : string) (v : V).

Lemma obj_get_set_eq o k v : obj_get (obj_set o k v) k = Some v.
Proof.
  induction o as [|[k' v'] o IH]; simpl.
  - by rewrite decide_True.
  - destruct (decide (k' = k)); simpl.
    + by rewrite decide_True.
    + by rewrite decide_False.
Qed.

Lemma obj_get_set_ne o k k' v :
  k ≠ k' → obj_get (obj_set o k v) k' = obj_get o k'.
Proof.
  intros Hne. induction o as [|[k0 v0] o IH]; simpl.
  - by rewrite decide_False.
  - destruct (decide (k0 = k)) as [->|]; simpl.
    + by rewrite !decide_False.
    + by rewrite IH.
Qed.

Lemma obj_get_delete_eq o k : obj_get (obj_delete o k) k = None.
Proof.
  unfold obj_delete. induction o as [|[k' v'] o IH]; [done|].
  rewrite filter_cons. simpl. destruct (decide (k' ≠ k)); simpl.
  - by rewrite decide_False.
  - done.
Qed.

Lemma obj_get_delete_ne o k k' :
  k ≠ k' → obj_get (obj_delete o k) k' = obj_get o k'.
Proof.
  intros Hne. unfold obj_delete. induction o as [|[k0 v0] o IH]; [done|].
  rewrite filter_cons. simpl. destruct (decide (k0 ≠ k)) as [|Heq]; simpl.
  - by rewrite IH.
  - apply dec_stable in Heq. subst k0. by rewrite decide_False.
Qed.

Lemma obj_get_None o k : obj_get o k = None ↔ k ∉ obj_keys o.
Proof.
  unfold obj_keys. induction o as [|[k' v'] o IH]; simpl.
  - split; [intros _; apply not_elem_of_nil|done].
  - rewrite not_elem_of_cons. destruct (decide (k' = k)) as [->|].
    + split; [done|]. intros [? _]. done.
    + rewrite IH. split; [intros ?; split; [done|done]|]. by intros [_ ?].
Qed.





End ObjectLemmas.

(** ** Secret masking *)

Section SecretMask.
Import CcSwitch Spec.
Implicit Types (env o : env_map) (k key : string) (v value : string).
Implicit Types (visited : list string).



(** *** The masking of [GET /providers] *)









(** *** The view of [GET /env] *)




End SecretMask.

(** ** The provider store *)

Section ProviderStore.
Import ccProvidersDb.
Implicit Types (t : gmap string row) (id appType k : string) (r : row).

Lemma elem_of_current_ids appType t k :
  k ∈ current_ids appType t ↔
  ∃ r, t !! k = Some r ∧ app_type r = appType ∧ is_current r = true.
Proof.
  unfold current_ids. rewrite elem_of_dom. split.
  - intros [r Hr]. apply map_lookup_filter_Some in Hr as [Hr [Ha Hc]].
    by exists r.
  - intros (r & Hr & Ha & Hc). exists r.
    by apply map_lookup_filter_Some.
Qed.

Lemma lookup_switchTo id appType t k :
  switchTo id appType t !! k =
  (λ r, if decide (app_type r = appType)
        then with_is_current (bool_decide (k = id)) r else r) <$> t !! k.
Proof.
  unfold switchTo, set_current, clear_current.
  destruct (decide (k = id)) as [->|Hne].
  - rewrite lookup_alter_eq, lookup_fmap, bool_decide_eq_true_2 by done.
    destruct (t !! id) as [r|]; simpl; [|done].
    destruct (decide (app_type r = appType)); simpl.
    + rewrite decide_True by done. done.
    + rewrite decide_False by done. done.
  - rewrite lookup_alter_ne, lookup_fmap, bool_decide_eq_false_2 by done.
    done.
Qed.

(** After [switchTo id appType], the only provider of [appType] that
    can be current is [id], and it is when it is a provider of
    [appType]. *)
Lemma current_ids_switchTo id appType t k :
  k ∈ current_ids appType (switchTo id appType t) ↔
  k = id ∧ ∃ r, t !! id = Some r ∧ app_type r = appType.
Proof.
  rewrite elem_of_current_ids. setoid_rewrite lookup_switchTo. split.
  - intros (r' & Hr' & Ha & Hc).
    destruct (t !! k) as [r|] eqn:Hk; simpl in Hr'; [|done].
    injection Hr' as <-.
    destruct (decide (app_type r = appType)) as [Hr|Hr]; simpl in *.
    + case_bool_decide; [|done]. subst k. eauto.
    + done.
  - intros [-> (r & Hr & Ha)]. rewrite Hr. simpl.
    rewrite decide_True, bool_decide_eq_true_2 by done. eauto.
Qed.

Lemma current_ids_switchTo_found id appType t r :
  t !! id = Some r → app_type r = appType →
  current_ids appType (switchTo id appType t) = {[id]}.
Proof.
  intros Hr Ha. apply set_eq. intros k.
  rewrite current_ids_switchTo, elem_of_singleton. naive_solver.
Qed.

Lemma current_ids_switchTo_size id appType t :
  (size (current_ids appType (switchTo id appType t)) ≤ 1)%nat.
Proof.
  rewrite <- (size_singleton (C:=gset string) id). apply subseteq_size.
  intros k. rewrite current_ids_switchTo, elem_of_singleton. tauto.
Qed.

Lemma current_ids_switchTo_other id appType appType' t :
  appType' ≠ appType →
  current_ids appType' (switchTo id appType t) = current_ids appType' t.
Proof.
  intros Hne. apply set_eq. intros k. rewrite !elem_of_current_ids.
  setoid_rewrite lookup_switchTo. split.
  - intros (r' & Hr' & Ha & Hc).
    destruct (t !! k) as [r|] eqn:Hk; simpl in Hr'; [|done].
    injection Hr' as <-. exists r.
    destruct (decide (app_type r = appType)); simpl in *; [congruence|done].
  - intros (r & Hr & Ha & Hc). rewrite Hr. simpl. exists r.
    rewrite decide_False by congruence. done.
Qed.

Lemma current_ids_delete id appType t :
  current_ids appType (delete id t).1 = current_ids appType t ∖ {[id]}.
Proof.
  apply set_eq. intros k.
  rewrite elem_of_difference, !elem_of_current_ids, elem_of_singleton.
  simpl. destruct (decide (k = id)) as [->|Hne].
  - rewrite lookup_delete_eq. naive_solver.
  - rewrite lookup_delete_ne by done. naive_solver.
Qed.

Lemma upsert_lookup_ne p now t t' k :
  upsert p now t = Some t' → k ≠ arg_id p → t' !! k = t !! k.
Proof.
  unfold upsert. destruct (excluded p now) as [new|]; simpl; [|done].
  intros [= <-] Hne.
  destruct (t !! arg_id p); by rewrite lookup_insert_ne.
Qed.

Lemma upsert_lookup_eq p now t t' :
  upsert p now t = Some t' →
  ∃ new, excluded p now = Some new ∧
         t' !! arg_id p =
           Some (match t !! arg_id p with
                 | Some old => on_conflict old new
                 | None => new
                 end).
Proof.
  unfold upsert. destruct (excluded p now) as [new|]; simpl; [|done].
  intros [= <-]. exists new. split; [done|].
  destruct (t !! arg_id p); by rewrite lookup_insert_eq.
Qed.

Lemma excluded_is_current p now new :
  excluded p now = Some new → is_current new = truthy (arg_is_current p).
Proof.
  unfold excluded. destruct (arg_name p); [|done]. by intros [= <-].
Qed.

Lemma upsert_is_current p now t t' :
  upsert p now t = Some t' →
  ∃ r, t' !! arg_id p = Some r ∧ is_current r = truthy (arg_is_current p).
Proof.
  intros H. apply upsert_lookup_eq in H as (new & Hnew & ->).
  apply excluded_is_current in Hnew.
  destruct (t !! arg_id p); eauto.
Qed.

Lemma current_ids_upsert_flag_free p now t t' appType :
  upsert p now t = Some t' → truthy (arg_is_current p) = false →
  current_ids appType t' = current_ids appType t ∖ {[arg_id p]}.
Proof.
  intros Hup Hf. apply set_eq. intros k.
  rewrite elem_of_difference, !elem_of_current_ids, elem_of_singleton.
  destruct (decide (k = arg_id p)) as [->|Hne].
  - destruct (upsert_is_current _ _ _ _ Hup) as (r & Hr & Hc).
    rewrite Hr. split; [|tauto].
    intros (r' & [= <-] & _ & Hc'). congruence.
  - rewrite (upsert_lookup_ne _ _ _ _ _ Hup Hne). tauto.
Qed.

Lemma single_current_empty : single_current ∅.
Proof.
  intros a. unfold current_ids. rewrite map_filter_empty, dom_empty_L.
  rewrite size_empty. lia.
Qed.

Lemma single_current_step o t :
  flag_free o → single_current t → single_current (step o t).
Proof.
  intros Ho Ht a. destruct o as [p now|id a'|id]; cbn [step flag_free] in *.
  - destruct (upsert p now t) as [t'|] eqn:Hup; simpl; [|apply Ht].
    rewrite (current_ids_upsert_flag_free _ _ _ _ _ Hup Ho).
    etrans; [|apply (Ht a)]. apply subseteq_size. set_solver.
  - destruct (decide (a = a')) as [->|Hne].
    + apply current_ids_switchTo_size.
    + rewrite current_ids_switchTo_other by done. apply Ht.
  - rewrite current_ids_delete.
    etrans; [|apply (Ht a)]. apply subseteq_size. set_solver.
Qed.

Lemma single_current_run ops t :
  Forall flag_free ops → single_current t → single_current (run ops t).
Proof.
  intros Hops. revert t. induction Hops as [|o ops Ho _ IH]; intros t Ht.
  - done.
  - simpl. apply IH. by apply single_current_step.
Qed.

(** C1, as stated, fails: two upserts that carry [is_current: true]
    leave two current providers of claude, and a switch to an id that
    does not exist leaves none. *)
Lemma C1_counterexample :
  ¬ single_current (run Scenarios.two_flagged ∅) ∧
  size (current_ids "claude" (run Scenarios.switch_to_ghost ∅)) = 0%nat.
Proof.
  split.
  - intros H. specialize (H "claude"). vm_compute in H. lia.
  - vm_compute. reflexivity.
Qed.

(** C1, amended: invariant I1 (at most one current provider per app
    type) holds after any sequence of switchTo, delete and upsert
    operations in which no upsert carries a truthy [is_current], from a
    store that satisfies it; and on any store, after
    [switchTo(id, appType)] at most one provider of [appType] is
    current, which can only be [id], the one switched to last, and is
    [id] whenever [id] is a provider of [appType]; the current providers
    of the other app types stay as they are. *)
Theorem C1_single_current_amended (ops : list op) t (s : gmap string row)
    id appType :
  (single_current t → Forall flag_free ops → single_current (run ops t)) ∧
  (size (current_ids appType (switchTo id appType s)) ≤ 1)%nat ∧
  current_ids appType (switchTo id appType s) ⊆ {[id]} ∧
  (∀ r, s !! id = Some r → app_type r = appType →
        current_ids appType (switchTo id appType s) = {[id]}) ∧
  (∀ appType', appType' ≠ appType →
        current_ids appType' (switchTo id appType s) = current_ids appType' s).
Proof.
  split; [intros Ht Hops; by apply single_current_run|].
  split; [apply current_ids_switchTo_size|]. split; [|split].
  - intros k. rewrite current_ids_switchTo, elem_of_singleton. tauto.
  - intros r. apply current_ids_switchTo_found.
  - intros appType'. apply current_ids_switchTo_other.
Qed.

Lemma C1_single_current_amended_witness :
  single_current (run Scenarios.switch_and_delete ∅) ∧
  current_ids "claude"
    (switchTo "b" "claude" (run Scenarios.switch_and_delete ∅)) = {["b"]}.
Proof.
  assert (Hff : Forall flag_free Scenarios.switch_and_delete)
    by (repeat constructor).
  destruct (C1_single_current_amended Scenarios.switch_and_delete ∅
              (run Scenarios.switch_and_delete ∅) "b" "claude")
    as (H1 & _ & _ & H2 & _).
  split; [exact (H1 single_current_empty Hff)|].
  destruct (run Scenarios.switch_and_delete ∅ !! "b") as [r|] eqn:Hb;
    [|vm_compute in Hb; discriminate].
  apply (H2 r eq_refl).
  vm_compute in Hb. injection Hb as <-. reflexivity.
Defined.




End ProviderStore.

(** ** The switch route *)

Section SwitchRoute.
Import ccProvidersDb CcSwitch.

(** Where the route does answer NotFound: no provider has the id. The
    world is left as it is, however long the process lives. *)
Lemma switch_route_not_found HOME_DIR id app n (w : world) :
  getById id (providers (db w)) = None →
  run_for n (post_providers_switch HOME_DIR id app) w =
    (w, Done (Failure 404 "Provider not found")).
Proof.
  intros H. unfold run_for, post_providers_switch, try_catch, bind, sync.
  rewrite H. reflexivity.
Qed.

(** C2 at its failing input: [x] is a provider of codex and [a] is the
    current provider of claude. The route called for [x] with
    [app=claude] finds [x] by its id alone, answers with success, and
    [switchTo] has cleared the flag of [a] and set none. *)
Lemma C2_switch_across_app_types :
  let w := Scenarios.a_is_current_world in
  let route := post_providers_switch "/home/u" "x" (Some "claude") in
  app_type <$> getById "x" (providers (db w)) = Some "codex" ∧
  current_ids "claude" (providers (db w)) = {["a"]} ∧
  (run_for 20 route w).2 =
    Done (Ok {| sw_id := "x"; sw_name := "x";
                sw_baseUrl := None; sw_model := None |}) ∧
  current_ids "claude" (providers (db (run_for 20 route w).1)) = ∅.
Proof. vm_compute. repeat split; reflexivity. Qed.

End SwitchRoute.

(** ** The prompt store *)

Section PromptStore.
Import ccPromptsDb.
Implicit Types (t : gmap string row) (id appType k : string) (r : row).

Lemma elem_of_enabled_ids appType t k :
  k ∈ enabled_ids appType t ↔
  ∃ r, t !! k = Some r ∧ app_type r = appType ∧ is_enabled r = true.
Proof.
  unfold enabled_ids. rewrite elem_of_dom. split.
  - intros [r Hr]. apply map_lookup_filter_Some in Hr as [Hr [Ha Hc]].
    by exists r.
  - intros (r & Hr & Ha & Hc). exists r.
    by apply map_lookup_filter_Some.
Qed.

(** Where [enable] does keep I2: when the prompt of [id] belongs to the
    app type of the call, it is the only enabled prompt of that app type
    afterwards. *)
Lemma enabled_ids_enable_same_app id appType t r :
  t !! id = Some r → app_type r = appType →
  enabled_ids appType (enable id appType t) = {[id]}.
Proof.
  intros Hr Ha. apply set_eq. intros k.
  rewrite elem_of_enabled_ids, elem_of_singleton. unfold enable, disableAll.
  destruct (decide (k = id)) as [->|Hne].
  - rewrite lookup_alter_eq, lookup_fmap, Hr. simpl.
    rewrite decide_True by done. split; [done|]. intros _.
    eexists. split; [done|]. simpl. done.
  - rewrite lookup_alter_ne, lookup_fmap by done. split; [|done].
    intros (r' & Hr' & Ha' & He).
    destruct (t !! k) as [r0|]; simpl in Hr'; [|done].
    injection Hr' as <-.
    destruct (decide (app_type r0 = appType)); simpl in *; congruence.
Qed.

(** C4 at its failing input: after [enable("P1", "codex")] prompt [P1]
    is the one enabled prompt of codex; [enable("P2", "claude")], where
    [P2] is a prompt of codex, then disables the prompts of claude and
    enables [P2]: codex has two enabled prompts. *)
Lemma C4_enable_across_app_types :
  enabled_ids "codex" (enable_all [("P1", "codex")] Scenarios.three_prompts)
    = {["P1"]} ∧
  enabled_ids "codex" (enable_all Scenarios.enable_across Scenarios.three_prompts)
    = {["P1"; "P2"]} ∧
  ¬ single_enabled (enable_all Scenarios.enable_across Scenarios.three_prompts).
Proof.
  split; [vm_compute; reflexivity|]. split; [vm_compute; reflexivity|].
  intros H. specialize (H "codex"). vm_compute in H. lia.
Qed.

End PromptStore.

(** ** The projection onto the config files *)

Section ConfigApplier.
Import CcSwitch Spec.
Local Open Scope js_scope.

Lemma tmp_neq filePath : filePath +:+ ".tmp" ≠ filePath.
Proof. by apply append_neq_self. Qed.





Lemma readJsonFile_document filePath w doc n :
  settings_document w filePath = Some doc →
  readJsonFile filePath (S n) w = (n, w, Done (JObj doc)).
Proof.
  unfold settings_document, readJsonFile, try_catch, bind, readFile, fs_call.
  destruct (files w !! filePath) as [[[]|]|]; simpl; try done.
  - by intros [= ->].
  - by intros [= <-].
  - by intros [= <-].
Qed.


(** Where the write is atomic: however long the process lives,
    [writeJsonFile] leaves the target as it was or has replaced it by
    the whole new document. *)
Lemma writeJsonFile_atomic filePath data n w :
  files (run_for n (writeJsonFile filePath data) w).1 !! filePath
    = files w !! filePath ∨
  (run_for n (writeJsonFile filePath data) w).2 = Done () ∧
  files (run_for n (writeJsonFile filePath data) w).1 !! filePath
    = Some (JsonText data).
Proof.
  pose proof (tmp_neq filePath) as Hne.
  unfold run_for, writeJsonFile, writeFile, rename, ensureDir, bind, fs_call.
  destruct n as [|[|[|[|n]]]]; simpl.
  - by left.
  - by left.
  - left. by rewrite lookup_insert_ne.
  - left. by rewrite !lookup_insert_ne.
  - right. rewrite lookup_insert_eq. simpl. by rewrite lookup_insert_eq.
Qed.

(** C5 at its failing inputs. For codex with a [configToml] payload the
    process is interrupted after two file-system calls: [config.toml],
    which held a configuration, is empty. For gemini it is interrupted
    after seven: [settings.json] has been replaced, and [.env], which
    held a key, is empty. Both files are written in place. *)
Lemma C5_config_files_written_in_place :
  let codex :=
    run_for 2 (applyProviderConfig "/home/u" Scenarios.codex_provider "codex")
            Scenarios.codex_world in
  let gemini :=
    run_for 7 (applyProviderConfig "/home/u" Scenarios.gemini_provider "gemini")
            Scenarios.gemini_world in
  (files Scenarios.codex_world !! CODEX_CONFIG "/home/u"
     = Some (PlainText "model = o3") ∧
   codex.2 = Interrupted ∧
   files codex.1 !! CODEX_CONFIG "/home/u" = Some (PlainText EmptyString)) ∧
  (files Scenarios.gemini_world !! path_join (GEMINI_DIR "/home/u") ".env"
     = Some (PlainText "GEMINI_API_KEY=old-key") ∧
   gemini.2 = Interrupted ∧
   files gemini.1 !! path_join (GEMINI_DIR "/home/u") ".env"
     = Some (PlainText EmptyString)).
Proof. vm_compute. repeat split; reflexivity. Qed.


End ConfigApplier.

(** ** The retention of speed-test results *)

Section SpeedTests.
Import ccSpeedTestsDb.
Implicit Types (rs : list row) (r : row) (p : string) (t : table).

#[local] Instance newer_first_total : Total newer_first.
Proof. intros x y. unfold newer_first. lia. Qed.

#[local] Instance newer_first_trans : Transitive newer_first.
Proof. intros x y z. unfold newer_first. lia. Qed.




Lemma id_inj_on rs r r' :
  NoDup (id <$> rs) → r ∈ rs → r' ∈ rs → id r = id r' → r = r'.
Proof.
  induction rs as [|x rs IH]; intros Hnd Hr Hr' Hid.
  - by apply not_elem_of_nil in Hr.
  - rewrite fmap_cons in Hnd. apply NoDup_cons in Hnd as [Hx Hnd].
    apply elem_of_cons in Hr as [->|Hr]; apply elem_of_cons in Hr' as [->|Hr'].
    + done.
    + exfalso. apply Hx. rewrite Hid. apply list_elem_of_fmap. eauto.
    + exfalso. apply Hx. rewrite <- Hid. apply list_elem_of_fmap. eauto.
    + by apply IH.
Qed.





Lemma filter_all {A} (P : A → Prop) `{∀ x, Decision (P x)} (l : list A) :
  Forall P l → filter P l = l.
Proof.
  induction 1 as [|x l Hx Hall IH]; [done|].
  rewrite filter_cons_True by done. by rewrite IH.
Qed.


(** Recording results. *)
Lemma wf_empty : wf empty.
Proof. split; [constructor|constructor]. Qed.

Lemma wf_save p appType ms http st now t :
  wf t → wf (save p appType ms http st now t).1.
Proof.
  intros [Hnd Hle]. unfold save, wf. simpl. split.
  - rewrite fmap_app. apply NoDup_app. split; [done|]. split.
    + intros i Hi Hi'. apply list_elem_of_fmap in Hi as (r & -> & Hr).
      rewrite Forall_forall in Hle. specialize (Hle r Hr). simpl in Hi'.
      apply list_elem_of_singleton in Hi'. lia.
    + simpl. apply NoDup_singleton.
  - apply Forall_app. split.
    + eapply Forall_impl; [done|]. simpl. intros r Hr. lia.
    + apply Forall_singleton. simpl. lia.
Qed.


Lemma wf_save_all p appType results t :
  wf t → wf (save_all p appType results t).
Proof.
  unfold save_all. revert t.
  induction results as [|x results IH]; intros t Ht; [done|].
  cbn [foldl]. apply IH. by apply wf_save.
Qed.




End SpeedTests.

(** ** The speed probes *)

Section SpeedProbe.
Import ccSpeedTestsDb CcSwitch Spec.
Implicit Types (net : network) (d : database).







End SpeedProbe.

(** * Further properties of the code *)

(** ** Reading and ordering the provider store *)

Section ProviderReads.
Import ccProvidersDb.
Implicit Types (t : gmap string row) (id appType k : string) (r : row).

#[local] Instance display_order_total : Total display_order.
Proof. intros x y. unfold display_order. lia. Qed.

#[local] Instance display_order_trans : Transitive display_order.
Proof. intros x y z. unfold display_order. lia. Qed.

(** A finite map filtered down to one key lists as that one entry. *)
Lemma map_to_list_filter_singleton {V} (P : string * V → Prop)
    `{∀ x, Decision (P x)} (m : gmap string V) k v :
  dom (filter P m) = {[k]} → m !! k = Some v →
  map_to_list (filter P m) = [(k, v)].
Proof.
  intros Hdom Hk.
  assert (Hf : filter P m = {[k := v]}).
  { apply map_eq. intros j. destruct (decide (j = k)) as [->|Hne].
    - rewrite lookup_singleton_eq.
      assert (Hin : k ∈ dom (filter P m)) by (rewrite Hdom; set_solver).
      apply elem_of_dom in Hin as [v' Hv'].
      pose proof Hv' as Hv''. apply map_lookup_filter_Some in Hv'' as [? _].
      congruence.
    - rewrite lookup_singleton_ne by done.
      apply not_elem_of_dom. rewrite Hdom. set_solver. }
  rewrite Hf. apply map_to_list_singleton.
Qed.

Lemma getCurrent_Some appType t id r :
  getCurrent appType t = Some (id, r) →
  t !! id = Some r ∧ app_type r = appType ∧ is_current r = true.
Proof.
  unfold getCurrent. intros H.
  apply head_Some_elem_of in H. apply elem_of_map_to_list in H.
  apply map_lookup_filter_Some in H. simpl in H. tauto.
Qed.

Lemma getCurrent_None appType t :
  getCurrent appType t = None ↔ current_ids appType t = ∅.
Proof.
  unfold getCurrent, current_ids. rewrite head_None. split.
  - intros H. apply map_to_list_empty_iff in H. rewrite H. apply dom_empty_L.
  - intros H. apply dom_empty_iff_L in H. rewrite H. apply map_to_list_empty.
Qed.





(** Deleting the current provider of an app type leaves the app type
    without a current provider: no other provider takes its place, and
    no other row changes. *)
Theorem delete_current_leaves_none id appType t r :
  single_current t → getCurrent appType t = Some (id, r) →
  (delete id t).2 = true ∧
  getById id (delete id t).1 = None ∧
  (∀ k, k ≠ id → getById k (delete id t).1 = getById k t) ∧
  getCurrent appType (delete id t).1 = None.
Proof.
  intros Hinv Hcur. apply getCurrent_Some in Hcur as (Hr & Ha & Hc).
  unfold getById. simpl. split; [|split; [|split]].
  - apply bool_decide_eq_true_2. by eexists.
  - apply lookup_delete_eq.
  - intros k Hk. by apply lookup_delete_ne.
  - apply getCurrent_None.
    change (base.delete id t) with (delete id t).1.
    rewrite current_ids_delete.
    assert (Hin : id ∈ current_ids appType t).
    { apply elem_of_current_ids. eauto. }
    specialize (Hinv appType).
    apply set_eq. intros k. rewrite elem_of_difference, elem_of_singleton.
    split; [|set_solver]. intros [Hk Hne]. exfalso. apply Hne.
    destruct (decide (k = id)) as [|Hkid]; [done|].
    assert (Hsub : ({[k; id]} : gset string) ⊆ current_ids appType t)
      by set_solver.
    apply subseteq_size in Hsub.
    rewrite size_union in Hsub by set_solver.
    rewrite !size_singleton in Hsub. lia.
Qed.

Lemma delete_current_leaves_none_witness :
  getCurrent "claude" (delete "a" Scenarios.a_is_current).1 = None.
Proof.
  assert (Hinv : single_current Scenarios.a_is_current).
  { apply single_current_run; [repeat constructor|apply single_current_empty]. }
  destruct (getCurrent "claude" Scenarios.a_is_current) as [[id r]|] eqn:Hc;
    [|vm_compute in Hc; discriminate].
  assert (id = "a") as -> by (vm_compute in Hc; congruence).
  exact (proj2 (proj2 (proj2
    (delete_current_leaves_none "a" "claude" Scenarios.a_is_current r Hinv Hc)))).
Defined.

(** An upsert of an id that is not in the store is undone by [delete]
    of that id, which reports the deletion. *)
Theorem delete_undoes_insert (p : provider_arg) (now : Z) t t' :
  t !! arg_id p = None → upsert p now t = Some t' →
  delete (arg_id p) t' = (t, true).
Proof.
  intros Hnone Hup. unfold upsert in Hup.
  destruct (excluded p now) as [new|]; simpl in Hup; [|done].
  rewrite Hnone in Hup. injection Hup as <-. unfold delete. f_equal.
  - by apply delete_insert_id.
  - apply bool_decide_eq_true_2. rewrite lookup_insert_eq. by eexists.
Qed.

Lemma delete_undoes_insert_witness :
  ∃ t', upsert (Scenarios.provider_of "new" "gemini" None) 9
               Scenarios.a_is_current = Some t' ∧
        delete "new" t' = (Scenarios.a_is_current, true).
Proof.
  destruct (upsert (Scenarios.provider_of "new" "gemini" None) 9
                   Scenarios.a_is_current) as [t'|] eqn:Hup;
    [|vm_compute in Hup; discriminate].
  exists t'. split; [reflexivity|].
  apply (delete_undoes_insert (Scenarios.provider_of "new" "gemini" None) 9
           Scenarios.a_is_current t'); [vm_compute; reflexivity|exact Hup].
Defined.

Lemma lookup_updateSortOrder updates t k :
  updateSortOrder updates t !! k =
    (λ r, match last (filter (λ u, u.1 = k) updates) with
          | Some u => with_sort_index u.2 r
          | None => r
          end) <$> t !! k.
Proof.
  unfold updateSortOrder. revert t.
  induction updates as [|[j i] us IH] using rev_ind; intros t.
  - simpl. by destruct (t !! k).
  - rewrite foldl_app. simpl. rewrite filter_app.
    destruct (decide (j = k)) as [->|Hne].
    + rewrite filter_cons_True, filter_nil by done.
      rewrite lookup_alter_eq, IH, last_snoc.
      destruct (t !! k) as [r|]; simpl; [|done].
      by destruct (last (filter _ us)).
    + rewrite filter_cons_False, filter_nil, app_nil_r by done.
      by rewrite lookup_alter_ne, IH.
Qed.

(** [updateSortOrder] adds and removes no row and changes no column but
    [sort_index]; a row gets the index of the last update that names its
    id, and keeps its index when none does; ids that are not in the
    store are passed over; the current providers stay. *)
Theorem updateSortOrder_only_sort_index updates t :
  (∀ k, updateSortOrder updates t !! k = None ↔ t !! k = None) ∧
  (∀ k r', updateSortOrder updates t !! k = Some r' →
     ∃ r, t !! k = Some r ∧ with_sort_index 0 r' = with_sort_index 0 r ∧
          sort_index r' =
            from_option snd (sort_index r)
                        (last (filter (λ u, u.1 = k) updates))) ∧
  (∀ appType, current_ids appType (updateSortOrder updates t)
              = current_ids appType t).
Proof.
  split; [|split].
  - intros k. rewrite lookup_updateSortOrder. by destruct (t !! k).
  - intros k r'. rewrite lookup_updateSortOrder.
    destruct (t !! k) as [r|]; simpl; [|done]. intros [= <-]. exists r.
    by destruct (last _).
  - intros appType. apply set_eq. intros k. rewrite !elem_of_current_ids.
    rewrite lookup_updateSortOrder. destruct (t !! k) as [r|]; simpl.
    + split.
      * intros (r' & [= <-] & H). exists r. split; [done|].
        by destruct (last _).
      * intros (r' & [= <-] & H). eexists. split; [done|].
        by destruct (last _).
    + split; intros (? & ? & _); done.
Qed.
End ProviderReads.

(** ** Enabling and disabling prompts *)

Section PromptOps.
Import ccPromptsDb CcSwitch Spec.
Local Open Scope js_scope.
Implicit Types (t : gmap string row) (id appType k : string) (r : row).

Lemma lookup_enable id appType t k :
  enable id appType t !! k =
    (λ r, if decide (k = id) then with_is_enabled true r
          else if decide (app_type r = appType) then with_is_enabled false r
          else r) <$> t !! k.
Proof.
  unfold enable, disableAll. destruct (decide (k = id)) as [->|Hne].
  - rewrite lookup_alter_eq, lookup_fmap.
    destruct (t !! id) as [r|]; simpl; [|done].
    by destruct (decide (app_type r = appType)).
  - by rewrite lookup_alter_ne, lookup_fmap.
Qed.

Lemma lookup_disableAll appType t k :
  disableAll appType t !! k =
    (λ r, if decide (app_type r = appType) then with_is_enabled false r else r)
      <$> t !! k.
Proof. unfold disableAll. by rewrite lookup_fmap. Qed.

(** [enable] of a prompt of the app type it is called with (or of an id
    that is not in the store) keeps "at most one enabled prompt per app
    type", and leaves no prompt of the app type enabled but that one. *)
Theorem enable_keeps_single_enabled id appType t :
  single_enabled t → (∀ r, t !! id = Some r → app_type r = appType) →
  single_enabled (enable id appType t) ∧
  enabled_ids appType (enable id appType t) ⊆ {[id]}.
Proof.
  intros Hinv Hid.
  assert (Hsub : enabled_ids appType (enable id appType t) ⊆ {[id]}).
  { intros k. rewrite elem_of_enabled_ids, elem_of_singleton, lookup_enable.
    intros (r' & Hr' & Ha & He).
    destruct (t !! k) as [r|]; simpl in Hr'; [|done]. injection Hr' as <-.
    destruct (decide (k = id)); [done|].
    destruct (decide (app_type r = appType)); simpl in *; congruence. }
  split; [|done]. intros a. destruct (decide (a = appType)) as [->|Hne].
  - rewrite <- (size_singleton (C:=gset string) id). by apply subseteq_size.
  - etrans; [apply subseteq_size|apply (Hinv a)].
    intros k. rewrite !elem_of_enabled_ids, lookup_enable.
    intros (r' & Hr' & Ha & He).
    destruct (t !! k) as [r|] eqn:Hk; simpl in Hr'; [|done].
    injection Hr' as <-. exists r. split; [done|].
    destruct (decide (k = id)) as [->|].
    + simpl in Ha. specialize (Hid r Hk). congruence.
    + destruct (decide (app_type r = appType)); simpl in *; [congruence|done].
Qed.

Lemma single_enabled_none t :
  map_Forall (λ _ r, is_enabled r = false) t → single_enabled t.
Proof.
  intros Hall a. replace (enabled_ids a t) with (∅ : gset string);
    [rewrite size_empty; lia|].
  symmetry. apply set_eq. intros k. rewrite elem_of_enabled_ids.
  split; [|set_solver]. intros (r & Hr & _ & He).
  specialize (Hall k r Hr). simpl in Hall. congruence.
Qed.

Lemma enable_keeps_single_enabled_witness :
  single_enabled
    (enable "P2" "codex" (enable "P1" "codex" Scenarios.three_prompts)) ∧
  enabled_ids "codex"
    (enable "P2" "codex" (enable "P1" "codex" Scenarios.three_prompts))
    ⊆ {[ "P2" ]}.
Proof.
  apply (enable_keeps_single_enabled "P2" "codex").
  - apply (enable_keeps_single_enabled "P1" "codex").
    + apply single_enabled_none. apply (bool_decide_unpack _).
      vm_compute. exact I.
    + intros r Hr. vm_compute in Hr. injection Hr as <-. reflexivity.
  - intros r Hr. vm_compute in Hr. injection Hr as <-. reflexivity.
Defined.

(** A repeated [enable] changes nothing. *)
Theorem enable_idempotent id appType t :
  enable id appType (enable id appType t) = enable id appType t.
Proof.
  apply map_eq. intros k. rewrite !lookup_enable.
  destruct (t !! k) as [r|]; simpl; [|done]. f_equal.
  destruct (decide (k = id)); [done|].
  destruct (decide (app_type r = appType)) as [Ha|Ha]; simpl.
  - by rewrite decide_True.
  - by rewrite decide_False.
Qed.

Lemma enabled_ids_disableAll appType t :
  enabled_ids appType (disableAll appType t) = ∅.
Proof.
  apply set_eq. intros k.
  rewrite elem_of_enabled_ids, lookup_disableAll. split; [|set_solver].
  intros (r' & Hr' & Ha & Hen).
  destruct (t !! k) as [r|]; simpl in Hr'; [|done]. injection Hr' as <-.
  destruct (decide (app_type r = appType)); simpl in *; congruence.
Qed.

(** [disableAll] leaves no enabled prompt of the app type, changes no
    other column and no prompt of another app type. *)
Theorem disableAll_disables appType t :
  enabled_ids appType (disableAll appType t) = ∅ ∧
  getEnabled appType (disableAll appType t) = None ∧
  (∀ a, a ≠ appType →
        enabled_ids a (disableAll appType t) = enabled_ids a t) ∧
  (∀ k r', disableAll appType t !! k = Some r' →
     ∃ r, t !! k = Some r ∧ with_is_enabled false r' = with_is_enabled false r).
Proof.
  pose proof (enabled_ids_disableAll appType t) as He.
  split; [done|]. split; [|split].
  - unfold getEnabled. apply head_None. unfold enabled_ids in He.
    apply dom_empty_iff_L in He. rewrite He. apply map_to_list_empty.
  - intros a Hne. apply set_eq. intros k.
    rewrite !elem_of_enabled_ids, lookup_disableAll.
    destruct (t !! k) as [r|]; simpl; [|naive_solver].
    destruct (decide (app_type r = appType)); simpl; [|done].
    split; intros (r' & [= <-] & Ha & _); simpl in *; congruence.
  - intros k r'. rewrite lookup_disableAll.
    destruct (t !! k) as [r|]; simpl; [|done]. intros [= <-]. exists r.
    split; [done|]. by destruct (decide _).
Qed.

Lemma getEnabled_after_enable id appType t r :
  t !! id = Some r → app_type r = appType →
  getEnabled appType (enable id appType t) = Some (id, with_is_enabled true r).
Proof.
  intros Hr Ha. unfold getEnabled.
  rewrite (map_to_list_filter_singleton _ _ id (with_is_enabled true r)).
  - done.
  - apply (enabled_ids_enable_same_app id appType t r Hr Ha).
  - rewrite lookup_enable, Hr. simpl. by rewrite decide_True.
Qed.

Lemma getEnabled_after_enable_other id appType t :
  (∀ r, t !! id = Some r → app_type r ≠ appType) →
  getEnabled appType (enable id appType t) = None.
Proof.
  intros Hid. unfold getEnabled. apply head_None.
  apply map_to_list_empty_iff. apply map_empty. intros k.
  apply eq_None_not_Some. intros [r' Hf].
  apply map_lookup_filter_Some in Hf as [Hk [Ha He]].
  simpl in *. rewrite lookup_enable in Hk.
  destruct (t !! k) as [r|] eqn:Hr; simpl in Hk; [|done]. injection Hk as <-.
  destruct (decide (k = id)) as [->|].
  - simpl in Ha. by apply (Hid r).
  - destruct (decide (app_type r = appType)); simpl in *; congruence.
Qed.

(** [POST /prompts/:id/enable] for a prompt of claude, run to its end:
    the prompt is the one enabled prompt of claude and its content is
    the [systemPrompt] of the settings file, whose other fields stay. *)
Theorem prompt_enable_projects_content (HOME_DIR id : string)
    (app : option string) (w : world) r (doc : obj json) (n : nat) :
  str_or app "claude" = "claude" →
  prompts (db w) !! id = Some r → app_type r = "claude" →
  settings_document w (CLAUDE_SETTINGS HOME_DIR) = Some doc →
  ∃ w' doc',
    run_for (5 + n) (post_prompts_enable HOME_DIR id app) w = (w', Done (Ok ())) ∧
    enabled_ids "claude" (prompts (db w')) = {[id]} ∧
    files w' !! CLAUDE_SETTINGS HOME_DIR = Some (JsonText (JObj doc')) ∧
    obj_get doc' "systemPrompt" = Some (JStr (content r)) ∧
    (∀ field, field ≠ "systemPrompt" → obj_get doc' field = obj_get doc field).
Proof.
  intros Happ Hr Ha Hdoc.
  pose proof (tmp_neq (CLAUDE_SETTINGS HOME_DIR)) as Htmp.
  unfold run_for, post_prompts_enable, try_catch. rewrite Happ.
  unfold bind at 1, sync at 1. unfold bind at 1, sync at 1. cbn [db with_db
    prompts with_prompts].
  rewrite (getEnabled_after_enable id "claude" _ r Hr Ha).
  rewrite decide_True by done. cbn [Nat.add]. unfold bind at 1.
  rewrite (readJsonFile_document _ _ doc) by done.
  cbn [assign_field snd content with_is_enabled].
  unfold writeJsonFile, writeFile, rename, ensureDir, bind, fs_call, ret.
  simpl. rewrite lookup_insert_eq. simpl.
  eexists _, _. split; [reflexivity|]. simpl.
  split; [exact (enabled_ids_enable_same_app id "claude" _ r Hr Ha)|].
  rewrite lookup_insert_eq. split; [reflexivity|].
  split; [apply obj_get_set_eq|]. intros field Hf. by apply obj_get_set_ne.
Qed.

Lemma prompt_enable_projects_content_witness :
  ∃ w' doc',
    run_for 5 (post_prompts_enable "/home/u" "Q" None) Scenarios.prompts_world
      = (w', Done (Ok ())) ∧
    enabled_ids "claude" (prompts (db w')) = {[ "Q" ]} ∧
    files w' !! CLAUDE_SETTINGS "/home/u" = Some (JsonText (JObj doc')) ∧
    obj_get doc' "systemPrompt" = Some (JStr "You are a helpful assistant.") ∧
    obj_get doc' "theme" = Some (JStr "dark").
Proof.
  destruct (prompts (db Scenarios.prompts_world) !! "Q") as [r|] eqn:Hr;
    [|vm_compute in Hr; discriminate].
  destruct (prompt_enable_projects_content "/home/u" "Q" None
              Scenarios.prompts_world r
              [("theme", JStr "dark"); ("systemPrompt", JStr "Be brief.")] 0)
    as (w' & doc' & Hrun & Hen & Hfile & Hprompt & Hother).
  - reflexivity.
  - exact Hr.
  - vm_compute in Hr. injection Hr as <-. reflexivity.
  - reflexivity.
  - exists w', doc'. split; [exact Hrun|]. split; [exact Hen|].
    split; [exact Hfile|]. split.
    + rewrite Hprompt. vm_compute in Hr. injection Hr as <-. reflexivity.
    + rewrite Hother by done. reflexivity.
Defined.

(** [POST /prompts/:id/enable] with an id that is no prompt of the app
    type answers success all the same, after [enable] has cleared the
    flags of the app type: no prompt of it is enabled and no file is
    touched. *)
Theorem prompt_enable_foreign_id (HOME_DIR id : string) (app : option string)
    (w : world) (n : nat) :
  (∀ r, prompts (db w) !! id = Some r → app_type r ≠ str_or app "claude") →
  run_for n (post_prompts_enable HOME_DIR id app) w =
    (with_db (with_prompts
                (enable id (str_or app "claude") (prompts (db w))) (db w)) w,
     Done (Ok ())) ∧
  getEnabled (str_or app "claude")
             (enable id (str_or app "claude") (prompts (db w))) = None.
Proof.
  intros Hid. split; [|by apply getEnabled_after_enable_other].
  unfold run_for, post_prompts_enable, try_catch.
  unfold bind at 1, sync at 1. unfold bind at 1, sync at 1. cbn [db with_db
    prompts with_prompts].
  by rewrite (getEnabled_after_enable_other id _ _ Hid).
Qed.

Lemma prompt_enable_foreign_id_witness :
  (run_for 3 (post_prompts_enable "/home/u" "P1" None)
           Scenarios.prompts_world).2 = Done (Ok ()) ∧
  getEnabled "claude"
    (enable "P1" "claude" (prompts (db Scenarios.prompts_world))) = None.
Proof.
  destruct (prompt_enable_foreign_id "/home/u" "P1" None
              Scenarios.prompts_world 3) as [Hrun Hnone].
  - intros r Hr. vm_compute in Hr. injection Hr as <-. simpl. discriminate.
  - split; [by rewrite Hrun|exact Hnone].
Defined.

(** [POST /prompts/disable-all] for claude, run to its end: no prompt of
    claude is enabled and the settings file has no [systemPrompt]; its
    other fields stay. *)
Theorem prompt_disable_all_removes_system_prompt (HOME_DIR : string)
    (app : option string) (w : world) (doc : obj json) (n : nat) :
  str_or app "claude" = "claude" →
  settings_document w (CLAUDE_SETTINGS HOME_DIR) = Some doc →
  ∃ w' doc',
    run_for (5 + n) (post_prompts_disable_all HOME_DIR app) w
      = (w', Done (Ok ())) ∧
    enabled_ids "claude" (prompts (db w')) = ∅ ∧
    files w' !! CLAUDE_SETTINGS HOME_DIR = Some (JsonText (JObj doc')) ∧
    obj_get doc' "systemPrompt" = None ∧
    (∀ field, field ≠ "systemPrompt" → obj_get doc' field = obj_get doc field).
Proof.
  intros Happ Hdoc.
  pose proof (tmp_neq (CLAUDE_SETTINGS HOME_DIR)) as Htmp.
  unfold run_for, post_prompts_disable_all, try_catch. rewrite Happ.
  unfold bind at 1, sync at 1. rewrite decide_True by done.
  cbn [Nat.add]. unfold bind at 1.
  rewrite (readJsonFile_document _ _ doc) by done.
  cbn [delete_field].
  unfold writeJsonFile, writeFile, rename, ensureDir, bind, fs_call, ret.
  simpl. rewrite lookup_insert_eq. simpl.
  eexists _, _. split; [reflexivity|]. simpl.
  split; [apply enabled_ids_disableAll|].
  rewrite lookup_insert_eq. split; [reflexivity|].
  split; [apply obj_get_delete_eq|]. intros field Hf. by apply obj_get_delete_ne.
Qed.

Lemma prompt_disable_all_removes_system_prompt_witness :
  ∃ w' doc',
    run_for 5 (post_prompts_disable_all "/home/u" None) Scenarios.prompts_world
      = (w', Done (Ok ())) ∧
    files w' !! CLAUDE_SETTINGS "/home/u" = Some (JsonText (JObj doc')) ∧
    obj_get doc' "systemPrompt" = None ∧
    obj_get doc' "theme" = Some (JStr "dark").
Proof.
  destruct (prompt_disable_all_removes_system_prompt "/home/u" None
              Scenarios.prompts_world
              [("theme", JStr "dark"); ("systemPrompt", JStr "Be brief.")] 0)
    as (w' & doc' & Hrun & Hen & Hfile & Hprompt & Hother);
    [reflexivity|reflexivity|].
  exists w', doc'. split; [exact Hrun|]. split; [exact Hfile|].
  split; [exact Hprompt|]. rewrite Hother by done. reflexivity.
Defined.

End PromptOps.

(** ** MCP servers *)

Section McpServers.
Import ccMcpServersDb CcSwitch Spec.
Local Open Scope js_scope.
Implicit Types (t : gmap string row) (id k : string) (r : row) (c : app).

#[local] Instance mcp_display_order_total : Total display_order.
Proof. intros x y. unfold display_order. lia. Qed.

#[local] Instance mcp_display_order_trans : Transitive display_order.
Proof. intros x y z. unfold display_order. lia. Qed.











End McpServers.

(** ** Skill repositories *)

Section SkillRepos.
Import ccSkillReposDb.
Implicit Types (t : table) (r : row) (o n : string).

Lemma elem_of_kept o n (rs : list row) r :
  r ∈ filter (λ r, ¬ same_repo o n r) rs ↔ r ∈ rs ∧ ¬ same_repo o n r.
Proof. rewrite list_elem_of_filter. tauto. Qed.

(** [add] over a table with distinct ids and at most one row per
    (owner, name): the table stays so; the pair is held by exactly one
    row, which is enabled, has the branch given (main when none is) and
    an id above every id handed out before, so that a repository that
    is added again loses its old id and its disabled state; the rows of
    the other repositories are as they were. *)
Theorem skill_repo_add_replaces o n (b : option string) (now : Z) t t' (i : Z) :
  wf t → add (Some o) (Some n) b now t = Some (t', i) →
  wf t' ∧
  (last_id t < i)%Z ∧
  (∃ r, r ∈ rows t' ∧ id r = i ∧ branch r = default "main" b ∧
        is_enabled r = true ∧
        ∀ r', r' ∈ rows t' → same_repo o n r' ↔ r' = r) ∧
  (∀ r, ¬ same_repo o n r → r ∈ rows t' ↔ r ∈ rows t).
Proof.
  intros (Hid & Hle & Hkey) Hadd. unfold add in Hadd. simpl in Hadd.
  injection Hadd as <- <-. simpl.
  rewrite Forall_forall in Hle.
  set (new := {| id := last_id t + 1; owner := o; name := n;
                 branch := default "main" b; is_enabled := true;
                 created_at := now |}).
  assert (Hsub : filter (λ r, ¬ same_repo o n r) (rows t) `sublist_of` rows t)
    by apply sublist_filter.
  split; [|split; [lia|split]].
  - split; [|split]; simpl.
    + rewrite fmap_app. apply NoDup_app. split; [|split].
      * eapply sublist_NoDup; [|by apply fmap_sublist]. done.
      * intros j Hj Hj'. apply list_elem_of_fmap in Hj as (r & -> & Hr).
        apply elem_of_kept in Hr as [Hr _]. specialize (Hle r Hr).
        apply list_elem_of_singleton in Hj'. simpl in Hj'. lia.
      * apply NoDup_singleton.
    + apply Forall_app. split.
      * apply Forall_forall. intros r Hr. apply elem_of_kept in Hr as [Hr _].
        specialize (Hle r Hr). simpl in Hle. lia.
      * apply Forall_singleton. simpl. lia.
    + rewrite fmap_app. apply NoDup_app. split; [|split].
      * eapply sublist_NoDup; [|by apply fmap_sublist]. done.
      * intros k Hk Hk'. apply list_elem_of_fmap in Hk as (r & -> & Hr).
        apply elem_of_kept in Hr as [_ Hr].
        apply list_elem_of_singleton in Hk'. simpl in Hk'.
        apply Hr. unfold same_repo. by injection Hk' as -> ->.
      * apply NoDup_singleton.
  - exists new. split; [apply elem_of_app; right; apply list_elem_of_singleton; done|].
    split; [done|]. split; [done|]. split; [done|].
    intros r' Hr'. apply elem_of_app in Hr' as [Hr'|Hr'].
    + apply elem_of_kept in Hr' as [Hin Hr']. split; [tauto|].
      intros ->. exfalso. apply Hr'. by unfold same_repo.
    + apply list_elem_of_singleton in Hr' as ->. by unfold same_repo.
  - intros r Hr. rewrite elem_of_app, elem_of_kept, list_elem_of_singleton.
    split; [|tauto]. intros [[? _]| ->]; [done|].
    exfalso. apply Hr. by unfold same_repo.
Qed.

Lemma skill_repo_add_replaces_witness :
  ∃ t', add (Some "anthropics") (Some "skills") None 5 Scenarios.two_repos
          = Some (t', 3%Z) ∧
        wf t' ∧ length (rows t') = 2%nat.
Proof.
  eexists. split; [reflexivity|]. split; [|reflexivity].
  refine (proj1 (skill_repo_add_replaces "anthropics" "skills" None 5
                   Scenarios.two_repos _ 3 _ eq_refl)).
  unfold wf. apply (bool_decide_unpack _). vm_compute. exact I.
Defined.

End SkillRepos.

(** ** The latest results *)

Section LatestResults.
Import ccSpeedTestsDb.
Implicit Types (t : table) (r : row) (rs : list row) (p appType : string).

#[local] Instance joined_newer_first_total {A} :
  Total (λ x y : row * A, newer_first x.1 y.1).
Proof. intros x y. unfold newer_first. lia. Qed.

#[local] Instance joined_newer_first_trans {A} :
  Transitive (λ x y : row * A, newer_first x.1 y.1).
Proof. intros x y z. unfold newer_first. lia. Qed.

Lemma max_id_Some rs (m : Z) :
  max_id rs = Some m →
  (∃ r, r ∈ rs ∧ id r = m) ∧ ∀ r, r ∈ rs → (id r ≤ m)%Z.
Proof.
  revert m. induction rs as [|x rs IH]; intros m; [done|].
  unfold max_id. simpl. fold (max_id rs).
  destruct (max_id rs) as [m'|] eqn:Hm; simpl; intros [= <-].
  - destruct (IH m' eq_refl) as [(r & Hr & Hid) Hle]. split.
    + destruct (decide (id x ≤ m')%Z).
      * exists r. split; [by apply elem_of_cons; right|lia].
      * exists x. split; [by apply elem_of_cons; left|lia].
    + intros r' Hr'. apply elem_of_cons in Hr' as [->|Hr']; [lia|].
      specialize (Hle r' Hr'). lia.
  - assert (rs = []) as ->.
    { destruct rs as [|y rs']; [done|]. unfold max_id in Hm. done. }
    split.
    + exists x. split; [by apply elem_of_cons; left|done].
    + intros r' Hr'. apply list_elem_of_singleton in Hr' as ->. lia.
Qed.

Lemma max_id_None rs : max_id rs = None → rs = [].
Proof. destruct rs; [done|]. unfold max_id. done. Qed.

(** The ids that the subquery selects. *)
Lemma elem_of_latest_ids appType rs (i : Z) :
  i ∈ latest_ids appType rs ↔
  ∃ r, r ∈ rs ∧ app_type r = appType ∧ id r = i ∧
       ∀ r', r' ∈ rs → app_type r' = appType →
             provider_id r' = provider_id r → (id r' ≤ id r)%Z.
Proof.
  unfold latest_ids. rewrite list_elem_of_omap. split.
  - intros (p & _ & Hm). apply max_id_Some in Hm as [(r & Hr & Hid) Hle].
    unfold partition in Hr. apply list_elem_of_filter in Hr as [Hp Hr].
    apply list_elem_of_filter in Hr as [Ha Hr].
    exists r. split; [done|]. split; [done|]. split; [done|].
    intros r' Hr' Ha' Hp'. rewrite Hid. apply Hle. unfold partition.
    apply list_elem_of_filter. split; [congruence|].
    by apply list_elem_of_filter.
  - intros (r & Hr & Ha & Hid & Hmax). exists (provider_id r).
    assert (Hin : r ∈ partition (provider_id r)
                        (filter (λ r, app_type r = appType) rs)).
    { unfold partition. apply list_elem_of_filter. split; [done|].
      by apply list_elem_of_filter. }
    split.
    + unfold providers. apply elem_of_remove_dups, list_elem_of_fmap.
      exists r. split; [done|]. by apply list_elem_of_filter.
    + destruct (max_id _) as [m|] eqn:Hm.
      * apply max_id_Some in Hm as [(r' & Hr' & Hid') Hle].
        specialize (Hle r Hin). unfold partition in Hr'.
        apply list_elem_of_filter in Hr' as [Hp' Hr'].
        apply list_elem_of_filter in Hr' as [Ha' Hr'].
        specialize (Hmax r' Hr' Ha' Hp'). f_equal. lia.
      * apply max_id_None in Hm. rewrite Hm in Hin.
        by apply elem_of_nil in Hin.
Qed.

Lemma elem_of_getLatest appType
    (cc_providers : gmap string ccProvidersDb.row) t r nm :
  wf t →
  (r, nm) ∈ getLatest appType cc_providers t ↔
    r ∈ rows t ∧ app_type r = appType ∧
    ccProvidersDb.name <$> cc_providers !! provider_id r = Some nm ∧
    ∀ r', r' ∈ rows t → app_type r' = appType →
          provider_id r' = provider_id r → (id r' ≤ id r)%Z.
Proof.
  intros [Hnd _]. unfold getLatest.
  rewrite merge_sort_Permutation, list_elem_of_omap. split.
  - intros (r0 & Hr0 & Hsel). case_decide as Hd; [|done].
    destruct Hd as [Ha Hlatest].
    destruct (cc_providers !! provider_id r0) as [prov|] eqn:Hp; [|done].
    simpl in Hsel. injection Hsel as <- <-.
    apply elem_of_latest_ids in Hlatest as (r1 & Hr1 & Ha1 & Hid & Hmax).
    assert (r1 = r0) as -> by (by apply (id_inj_on (rows t))).
    by rewrite Hp.
  - intros (Hr & Ha & Hnm & Hmax). exists r. split; [done|].
    rewrite decide_True.
    + destruct (cc_providers !! provider_id r); simpl in *; congruence.
    + split; [done|]. apply elem_of_latest_ids. by exists r.
Qed.

(** [getLatest] returns, newest test first, exactly the rows of the app
    type that have the largest id among the rows of their provider and
    app type, that is the result recorded last for each provider, each
    with the name of its provider; a result whose provider is not in
    [cc_providers] is left out. *)
Theorem getLatest_last_of_each_provider appType
    (cc_providers : gmap string ccProvidersDb.row) t :
  wf t →
  StronglySorted (λ x y, newer_first x.1 y.1)
                 (getLatest appType cc_providers t) ∧
  ∀ r nm, (r, nm) ∈ getLatest appType cc_providers t ↔
    r ∈ rows t ∧ app_type r = appType ∧
    ccProvidersDb.name <$> cc_providers !! provider_id r = Some nm ∧
    ∀ r', r' ∈ rows t → app_type r' = appType →
          provider_id r' = provider_id r → (id r' ≤ id r)%Z.
Proof.
  intros Hwf. split.
  - unfold getLatest. apply StronglySorted_merge_sort; apply _.
  - intros r nm. by apply elem_of_getLatest.
Qed.

(** The result that [save] records for a provider of [cc_providers] is,
    from then on, the one result that [getLatest] returns for that
    provider. *)
Lemma getLatest_after_save p appType (ms http : Z) (st : probe_status)
    (now : Z) (cc_providers : gmap string ccProvidersDb.row) t prov :
  wf t → cc_providers !! p = Some prov →
  ∃ r, id r = (save p appType ms http st now t).2 ∧
       response_time_ms r = ms ∧ http_status r = http ∧ status r = st ∧
       (r, ccProvidersDb.name prov)
         ∈ getLatest appType cc_providers (save p appType ms http st now t).1 ∧
       ∀ r' nm, (r', nm) ∈ getLatest appType cc_providers
                              (save p appType ms http st now t).1 →
                provider_id r' = p → r' = r.
Proof.
  intros Hwf Hp.
  pose proof (wf_save p appType ms http st now t Hwf) as Hwf'.
  assert (Hiff := λ r nm, elem_of_getLatest appType cc_providers _ r nm Hwf').
  destruct Hwf as [Hnd Hle]. rewrite Forall_forall in Hle.
  set (new := {| id := last_id t + 1; provider_id := p; app_type := appType;
                 response_time_ms := ms; http_status := http; status := st;
                 tested_at := now |}).
  assert (Hnew : new ∈ rows (save p appType ms http st now t).1).
  { simpl. apply elem_of_app. right. by apply list_elem_of_singleton. }
  assert (Hold : ∀ r', r' ∈ rows (save p appType ms http st now t).1 →
                       r' = new ∨ (id r' < id new)%Z).
  { simpl. intros r' Hr'. apply elem_of_app in Hr' as [Hr'|Hr'].
    - right. specialize (Hle r' Hr'). simpl in Hle. lia.
    - left. by apply list_elem_of_singleton in Hr'. }
  exists new. do 4 (split; [done|]). split.
  - apply Hiff. split; [done|]. split; [done|]. simpl. rewrite Hp.
    split; [done|]. intros r' Hr' _ _.
    destruct (Hold r' Hr') as [->|Hlt]; simpl in *; lia.
  - intros r' nm Hin Hp'. apply Hiff in Hin as (Hr' & Ha' & _ & Hmax).
    destruct (Hold r' Hr') as [->|Hlt]; [done|].
    specialize (Hmax new Hnew eq_refl (eq_sym Hp')). simpl in *. lia.
Qed.

Lemma getLatest_last_of_each_provider_witness :
  Forall (λ x, id x.1 = 15%Z ∧ x.2 = "a")
         (getLatest "claude" Scenarios.a_is_current
                    Scenarios.fifteen_results).
Proof.
  apply Forall_forall. intros [r nm]. simpl. revert r nm.
  assert (Hwf : wf Scenarios.fifteen_results)
    by apply wf_save_all, wf_empty.
  destruct (getLatest_last_of_each_provider "claude" Scenarios.a_is_current
              Scenarios.fifteen_results Hwf) as [_ Hiff].
  intros r nm Hin. apply Hiff in Hin as (Hr & Ha & Hnm & Hmax).
  assert (Hp : provider_id r = "a").
  { revert Hr. generalize r. apply Forall_forall.
    apply (bool_decide_unpack _). vm_compute. exact I. }
  rewrite Hp in Hnm. vm_compute in Hnm. injection Hnm as <-.
  split; [|done].
  assert (Hle : (id r ≤ 15)%Z).
  { revert Hr. generalize r. apply Forall_forall.
    apply (bool_decide_unpack _). vm_compute. exact I. }
  assert (Hge : (15 ≤ id r)%Z).
  { apply (Hmax {| id := 15; provider_id := "a"; app_type := "claude";
                   response_time_ms := 120; http_status := 200;
                   status := operational; tested_at := 15 |}).
    - apply (bool_decide_unpack _). vm_compute. exact I.
    - done.
    - by rewrite Hp. }
  lia.
Defined.

End LatestResults.

Section LatestAfterProbe.
Import CcSwitch.

(** The result of [POST /speed-test] for a provider of the store is
    what [getLatest] then shows for that provider, and the only result
    it shows for it: the status, the time and the HTTP status of the
    answer, under the name of the provider. *)
Theorem speed_test_result_is_latest (net : network) (providerId : string)
    (app : option string) (d : database) provider :
  ccSpeedTestsDb.wf (speed_tests d) →
  ccProvidersDb.getById providerId (providers d) = Some provider →
  let res := post_speed_test net providerId app d in
  let latest := ccSpeedTestsDb.getLatest (default "claude" app)
                  (providers res.1) (speed_tests res.1) in
  ∃ body r,
    res.2 = Ok body ∧
    (r, ccProvidersDb.name provider) ∈ latest ∧
    pr_providerName body = ccProvidersDb.name provider ∧
    ccSpeedTestsDb.status r = pr_status body ∧
    ccSpeedTestsDb.response_time_ms r = pr_responseTime body ∧
    ccSpeedTestsDb.http_status r = pr_httpStatus body ∧
    ∀ r' nm, (r', nm) ∈ latest →
             ccSpeedTestsDb.provider_id r' = providerId → r' = r.
Proof.
  intros Hwf Hget res latest. subst latest res. unfold post_speed_test.
  rewrite Hget.
  destruct (probe_target _ _) as [testUrl apiKey].
  destruct (classify _) as [st http]. cbn [fst snd].
  cbn [with_speed_tests providers speed_tests].
  destruct (getLatest_after_save providerId (default "claude" app)
              (endTime (net providerId testUrl (str_or apiKey EmptyString))
               - startTime (net providerId testUrl (str_or apiKey EmptyString)))
              http st
              (timestamp (net providerId testUrl (str_or apiKey EmptyString)))
              (providers d) (speed_tests d) provider Hwf Hget)
    as (r & _ & Hms & Hhttp & Hst & Hin & Honly).
  eexists _, r. split; [reflexivity|]. simpl. done.
Qed.

Lemma speed_test_result_is_latest_witness :
  ∃ body r,
    (post_speed_test Scenarios.healthy_network "a" None
                     Scenarios.ten_results_db).2 = Ok body ∧
    pr_status body = ccSpeedTestsDb.operational ∧
    pr_responseTime body = 85%Z ∧
    ccSpeedTestsDb.status r = ccSpeedTestsDb.operational ∧
    ccSpeedTestsDb.response_time_ms r = 85%Z.
Proof.
  assert (Hwf : ccSpeedTestsDb.wf (speed_tests Scenarios.ten_results_db))
    by apply wf_save_all, wf_empty.
  destruct (ccProvidersDb.getById "a" (providers Scenarios.ten_results_db))
    as [provider|] eqn:Hget; [|vm_compute in Hget; discriminate].
  destruct (speed_test_result_is_latest Scenarios.healthy_network "a" None
              Scenarios.ten_results_db provider Hwf Hget)
    as (body & r & Hres & _ & _ & Hst & Hms & _).
  exists body, r. split; [exact Hres|].
  vm_compute in Hres. injection Hres as <-.
  split; [reflexivity|]. split; [reflexivity|]. by rewrite Hst, Hms.
Defined.

End LatestAfterProbe.

(** ** The switch route and the projection, step by step *)

Section Frame.
Import CcSwitch.
Local Open Scope js_scope.
Context {B : Type} (proj : world → B).
Hypothesis proj_files : ∀ f w, proj (with_files f w) = proj w.
Hypothesis proj_dirs : ∀ d w, proj (with_dirs d w) = proj w.

(** A computation keeps a component of the world when every run of it,
    however long the process lives, leaves that component as it was. *)
Lemma keeps_ret {A} (a : A) n w : proj (ret a n w).1.2 = proj w.
Proof. done. Qed.

Lemma keeps_throw {A} message n w : proj (throw (A:=A) message n w).1.2 = proj w.
Proof. done. Qed.

Lemma keeps_bind {A C} (m : M A) (k : A → M C) :
  (∀ n w, proj (m n w).1.2 = proj w) →
  (∀ a n w, proj (k a n w).1.2 = proj w) →
  ∀ n w, proj (bind m k n w).1.2 = proj w.
Proof.
  intros Hm Hk n w. unfold bind. specialize (Hm n w).
  destruct (m n w) as [[n' w'] [a| |]]; simpl in *; [|done..].
  by rewrite Hk.
Qed.

Lemma keeps_try_catch {A} (m : M A) (h : string → M A) :
  (∀ n w, proj (m n w).1.2 = proj w) →
  (∀ e n w, proj (h e n w).1.2 = proj w) →
  ∀ n w, proj (try_catch m h n w).1.2 = proj w.
Proof.
  intros Hm Hh n w. unfold try_catch. specialize (Hm n w).
  destruct (m n w) as [[n' w'] [a| |]]; simpl in *; [done| |done].
  by rewrite Hh.
Qed.

Lemma keeps_ensureDir dir n w : proj (ensureDir dir n w).1.2 = proj w.
Proof. unfold ensureDir, fs_call. destruct n; simpl; [done|apply proj_dirs]. Qed.

Lemma keeps_readFile filePath n w : proj (readFile filePath n w).1.2 = proj w.
Proof.
  unfold readFile, fs_call. destruct n; simpl; [done|].
  by destruct (files w !! filePath).
Qed.

Lemma keeps_writeFile filePath data n w :
  proj (writeFile filePath data n w).1.2 = proj w.
Proof.
  unfold writeFile. apply keeps_bind.
  - intros n' w'. unfold fs_call. destruct n'; simpl; [done|apply proj_files].
  - intros _ n' w'. unfold fs_call. destruct n'; simpl; [done|apply proj_files].
Qed.

Lemma keeps_rename from to n w : proj (rename from to n w).1.2 = proj w.
Proof.
  unfold rename, fs_call. destruct n; simpl; [done|].
  destruct (files w !! from); simpl; [apply proj_files|done].
Qed.

Lemma keeps_readJsonFile filePath n w :
  proj (readJsonFile filePath n w).1.2 = proj w.
Proof.
  unfold readJsonFile. apply keeps_try_catch; [|intros; apply keeps_ret].
  apply keeps_bind; [apply keeps_readFile|].
  intros [v|s] n' w'; [apply keeps_ret|apply keeps_throw].
Qed.

Lemma keeps_writeJsonFile filePath data n w :
  proj (writeJsonFile filePath data n w).1.2 = proj w.
Proof.
  unfold writeJsonFile. apply keeps_bind; [apply keeps_ensureDir|].
  intros _. apply keeps_bind; [apply keeps_writeFile|].
  intros _. apply keeps_rename.
Qed.

End Frame.

Section SwitchSteps.
Import CcSwitch Spec.
Local Open Scope js_scope.

Lemma run_for_fst {A} n (m : M A) w : (run_for n m w).1 = (m n w).1.2.
Proof. unfold run_for. by destruct (m n w) as [[? ?] ?]. Qed.

Lemma run_for_snd {A} n (m : M A) w : (run_for n m w).2 = (m n w).2.
Proof. unfold run_for. by destruct (m n w) as [[? ?] ?]. Qed.

Lemma db_update_process_env env n w :
  db (update_process_env env n w).1.2 = db w.
Proof. done. Qed.

(** No run of [applyProviderConfig] touches the database. *)
Lemma db_applyProviderConfig HOME_DIR provider appType n w :
  db (applyProviderConfig HOME_DIR provider appType n w).1.2 = db w.
Proof.
  revert n w. unfold applyProviderConfig.
  assert (Hf : ∀ f w, db (with_files f w) = db w) by done.
  assert (Hd : ∀ d w, db (with_dirs d w) = db w) by done.
  repeat case_decide.
  - apply keeps_bind; [by apply keeps_ensureDir|]. intros _.
    apply keeps_bind; [by apply keeps_readJsonFile|]. intros settings.
    destruct (assign_env _ _); [|by apply keeps_throw].
    apply keeps_bind; [by apply keeps_writeJsonFile|]. intros _.
    apply db_update_process_env.
  - apply keeps_bind; [by apply keeps_ensureDir|]. intros _.
    apply keeps_bind.
    + destruct (nonempty _); [by apply keeps_writeFile|by apply keeps_ret].
    + intros _. destruct (nonempty _);
        [by apply keeps_writeJsonFile|by apply keeps_ret].
  - apply keeps_bind; [by apply keeps_ensureDir|]. intros _.
    apply keeps_bind; [by apply keeps_readJsonFile|]. intros settings.
    destruct (assign_env _ _); [|by apply keeps_throw].
    apply keeps_bind; [by apply keeps_writeJsonFile|]. intros _.
    by apply keeps_writeFile.
  - by apply keeps_ret.
Qed.

(** [POST /providers/:id/switch] for an id that the store holds: the
    switch in the database is made before the projection onto the files
    begins and is never taken back. Whether the projection completes,
    throws (the answer is then 500) or is interrupted, the store is the
    one that [switchTo] leaves. *)
Theorem switch_committed_before_projection (HOME_DIR id : string)
    (app : option string) (w : world) provider (n : nat) :
  ccProvidersDb.getById id (providers (db w)) = Some provider →
  db (run_for n (post_providers_switch HOME_DIR id app) w).1 =
    with_providers
      (ccProvidersDb.switchTo id (str_or app "claude") (providers (db w)))
      (db w).
Proof.
  intros Hget. rewrite run_for_fst. unfold post_providers_switch.
  set (w1 := with_db (with_providers
                 (ccProvidersDb.switchTo id (str_or app "claude")
                    (providers (db w))) (db w)) w).
  change (with_providers _ (db w)) with (db w1).
  unfold try_catch, bind at 1, sync at 1. cbn beta iota zeta.
  rewrite Hget. unfold bind at 1, sync at 1. cbn beta iota zeta. fold w1.
  match goal with
  | |- db (match ?m n w1 with _ => _ end).1.2 = _ =>
      pose proof (keeps_bind db (applyProviderConfig HOME_DIR provider
                                   (str_or app "claude"))
                    (λ _, ret (Ok {| sw_id := id;
                       sw_name := ccProvidersDb.name provider;
                       sw_baseUrl := first_truthy
                         [env_field (ccProvidersDb.settings_config provider)
                                    "ANTHROPIC_BASE_URL";
                          env_field (ccProvidersDb.settings_config provider)
                                    "OPENAI_BASE_URL"];
                       sw_model := first_truthy
                         [env_field (ccProvidersDb.settings_config provider)
                                    "ANTHROPIC_MODEL";
                          env_field (ccProvidersDb.settings_config provider)
                                    "OPENAI_MODEL"] |}))
                    (db_applyProviderConfig HOME_DIR provider _)
                    (λ _ _ _, eq_refl) n w1) as Hk
  end.
  destruct (bind _ _ n w1) as [[n' w'] [a| |]]; simpl in *; done.
Qed.

Lemma switch_committed_before_projection_witness :
  (run_for 3 (post_providers_switch "/home/u" "b" None)
           Scenarios.a_is_current_world).2 = Interrupted ∧
  ccProvidersDb.current_ids "claude"
    (providers (db (run_for 3 (post_providers_switch "/home/u" "b" None)
                            Scenarios.a_is_current_world).1)) = {[ "b" ]}.
Proof.
  split; [vm_compute; reflexivity|].
  destruct (ccProvidersDb.getById "b"
              (providers (db Scenarios.a_is_current_world)))
    as [provider|] eqn:Hget; [|vm_compute in Hget; discriminate].
  rewrite (switch_committed_before_projection "/home/u" "b" None
             Scenarios.a_is_current_world provider 3 Hget).
  vm_compute. reflexivity.
Defined.

Lemma lookup_process_env_update (env : env_map) (pe : gmap string string) k :
  NoDup (obj_keys env) →
  foldl (λ pe kv, <[kv.1 := kv.2]> pe) pe (obj_entries env) !! k =
    match obj_get env k with Some v => Some v | None => pe !! k end.
Proof.
  unfold obj_entries, obj_keys. revert pe.
  induction env as [|[k1 v1] env IH]; intros pe Hnd; [done|].
  rewrite fmap_cons in Hnd. apply NoDup_cons in Hnd as [Hk1 Hnd].
  simpl. rewrite IH by done. destruct (decide (k1 = k)) as [->|Hne].
  - assert (obj_get env k = None) as -> by (by apply obj_get_None).
    by rewrite lookup_insert_eq.
  - destruct (obj_get env k); [done|]. by rewrite lookup_insert_ne.
Qed.

(** A computation that leaves the process environment alone, followed
    by one that sets it when it completes, sets it when it completes. *)
Lemma sets_env_bind {A} (F : gmap string string → gmap string string)
    (m : M A) (k : A → M unit) :
  (∀ n w, process_env (m n w).1.2 = process_env w) →
  (∀ a n w, process_env (k a n w).1.2 =
            match (k a n w).2 with
            | Done _ => F (process_env w)
            | _ => process_env w
            end) →
  ∀ n w, process_env (bind m k n w).1.2 =
         match (bind m k n w).2 with
         | Done _ => F (process_env w)
         | _ => process_env w
         end.
Proof.
  intros Hm Hk n w. unfold bind. specialize (Hm n w).
  destruct (m n w) as [[n' w'] [a| |]]; simpl in *; [|done..].
  rewrite Hk. by rewrite Hm.
Qed.

Lemma process_env_applyProviderConfig_other HOME_DIR provider appType n w :
  appType ≠ "claude" →
  process_env (applyProviderConfig HOME_DIR provider appType n w).1.2
    = process_env w.
Proof.
  intros Hne. revert n w. unfold applyProviderConfig.
  assert (Hf : ∀ f w, process_env (with_files f w) = process_env w) by done.
  assert (Hd : ∀ d w, process_env (with_dirs d w) = process_env w) by done.
  rewrite decide_False by done. repeat case_decide.
  - apply keeps_bind; [by apply keeps_ensureDir|]. intros _.
    apply keeps_bind.
    + destruct (nonempty _); [by apply keeps_writeFile|by apply keeps_ret].
    + intros _. destruct (nonempty _);
        [by apply keeps_writeJsonFile|by apply keeps_ret].
  - apply keeps_bind; [by apply keeps_ensureDir|]. intros _.
    apply keeps_bind; [by apply keeps_readJsonFile|]. intros settings.
    destruct (assign_env _ _); [|by apply keeps_throw].
    apply keeps_bind; [by apply keeps_writeJsonFile|]. intros _.
    by apply keeps_writeFile.
  - by apply keeps_ret.
Qed.

(** The process environment is set by the projection for claude, and
    only once the settings file is written: a run that throws or is
    interrupted leaves it as it was, as does every run for another app
    type. A completed run for claude assigns the variables of the
    provider and leaves the others. *)
Theorem process_env_set_by_completed_claude_projection (HOME_DIR : string)
    (provider : ccProvidersDb.row) (appType : string) (w : world) (n : nat) :
  let env := default [] (cfg_env (ccProvidersDb.settings_config provider)) in
  let res := run_for n (applyProviderConfig HOME_DIR provider appType) w in
  NoDup (obj_keys env) →
  match res.2 with
  | Done _ =>
      if decide (appType = "claude") then
        ∀ k, process_env res.1 !! k =
             match obj_get env k with
             | Some v => Some v
             | None => process_env w !! k
             end
      else process_env res.1 = process_env w
  | _ => process_env res.1 = process_env w
  end.
Proof.
  intros env res Hnd. subst res. rewrite run_for_fst, run_for_snd.
  destruct (decide (appType = "claude")) as [->|Hne].
  - assert (Hf : ∀ f w, process_env (with_files f w) = process_env w) by done.
    assert (Hd : ∀ d w, process_env (with_dirs d w) = process_env w) by done.
    assert (H : ∀ n w,
      process_env (applyProviderConfig HOME_DIR provider "claude" n w).1.2 =
        match (applyProviderConfig HOME_DIR provider "claude" n w).2 with
        | Done _ => foldl (λ pe kv, <[kv.1 := kv.2]> pe) (process_env w)
                          (obj_entries env)
        | _ => process_env w
        end).
    { unfold applyProviderConfig. rewrite decide_True by done. fold env.
      set (F := λ pe : gmap string string,
                  foldl (λ pe kv, <[kv.1 := kv.2]> pe) pe (obj_entries env)).
      apply (sets_env_bind F); [by apply keeps_ensureDir|]. intros _.
      apply (sets_env_bind F); [by apply keeps_readJsonFile|].
      intros settings. destruct (assign_env _ _); [|done].
      apply (sets_env_bind F); [by apply keeps_writeJsonFile|]. intros _.
      done. }
    specialize (H n w).
    destruct (applyProviderConfig _ _ _ n w) as [[n' w'] [[]| |]];
      simpl in *; [|done..].
    intros k. rewrite H. by apply lookup_process_env_update.
  - pose proof (process_env_applyProviderConfig_other HOME_DIR provider
                  appType n w Hne) as H.
    by destruct (applyProviderConfig _ _ _ n w) as [[n' w'] [[]| |]].
Qed.

Lemma process_env_set_by_completed_claude_projection_witness :
  process_env
    (run_for 8 (applyProviderConfig "/home/u" Scenarios.bar_baz_provider
                                    "claude") Scenarios.foo_bar_world).1
    !! "BAR" = Some "9" ∧
  process_env
    (run_for 5 (applyProviderConfig "/home/u" Scenarios.bar_baz_provider
                                    "claude") Scenarios.foo_bar_world).1
    = ∅.
Proof.
  assert (Hnd : NoDup (obj_keys (default []
                  (cfg_env (ccProvidersDb.settings_config
                              Scenarios.bar_baz_provider))))).
  { apply (bool_decide_unpack _). vm_compute. exact I. }
  split.
  - pose proof (process_env_set_by_completed_claude_projection "/home/u"
                  Scenarios.bar_baz_provider "claude" Scenarios.foo_bar_world
                  8 Hnd) as H.
    cbv zeta in H.
    destruct (run_for 8 _ _) as [w' [[]| |]] eqn:Hrun;
      [|vm_compute in Hrun; discriminate..].
    cbn [fst snd] in H |- *.
    destruct (decide ("claude" = "claude")) as [_|Hn]; [|done].
    by rewrite (H "BAR").
  - pose proof (process_env_set_by_completed_claude_projection "/home/u"
                  Scenarios.bar_baz_provider "claude" Scenarios.foo_bar_world
                  5 Hnd) as H.
    cbv zeta in H.
    destruct (run_for 5 _ _) as [w' [[]| |]] eqn:Hrun;
      [vm_compute in Hrun; discriminate| |]; cbn [fst snd] in H |- *; rewrite H; reflexivity.
Defined.




Lemma codex_paths_neq HOME_DIR :
  path_join (CODEX_DIR HOME_DIR) "auth.json" ≠ CODEX_CONFIG HOME_DIR ∧
  path_join (CODEX_DIR HOME_DIR) "auth.json" +:+ ".tmp"
    ≠ CODEX_CONFIG HOME_DIR.
Proof.
  unfold CODEX_CONFIG, path_join. split; intros E.
  - apply (inj (String.app _)) in E. vm_compute in E. discriminate.
  - rewrite append_assoc in E.
    apply (inj (String.app _)) in E. vm_compute in E. discriminate.
Qed.

(** The projection for codex, run to its end: [config.toml] holds the
    [configToml] payload of the provider when there is one, and is left
    as it was otherwise; [auth.json] is replaced by the object that
    holds the [OPENAI_API_KEY] of the provider as [api_key], and by
    nothing else, when there is one, and is left as it was otherwise.
    No other variable of the provider is written anywhere. *)
Theorem codex_projection (HOME_DIR : string) (provider : ccProvidersDb.row)
    (w : world) (n : nat) :
  let config := ccProvidersDb.settings_config provider in
  let env := default [] (cfg_env config) in
  let authPath := path_join (CODEX_DIR HOME_DIR) "auth.json" in
  ∃ w',
    run_for (7 + n) (applyProviderConfig HOME_DIR provider "codex") w
      = (w', Done ()) ∧
    files w' !! CODEX_CONFIG HOME_DIR =
      match nonempty (cfg_configToml config) with
      | Some toml => Some (PlainText toml)
      | None => files w !! CODEX_CONFIG HOME_DIR
      end ∧
    files w' !! authPath =
      match nonempty (obj_get env "OPENAI_API_KEY") with
      | Some key => Some (JsonText (JObj [("api_key", JStr key)]))
      | None => files w !! authPath
      end ∧
    (∀ path, path ≠ CODEX_CONFIG HOME_DIR → path ≠ authPath →
             path ≠ authPath +:+ ".tmp" → files w' !! path = files w !! path) ∧
    process_env w' = process_env w.
Proof.
  intros config env authPath.
  destruct (codex_paths_neq HOME_DIR) as [Hp1 Hp2]. fold authPath in Hp1, Hp2.
  pose proof (tmp_neq authPath) as Htmp.
  unfold run_for, applyProviderConfig.
  rewrite decide_False, decide_True by done. fold config env authPath.
  destruct (nonempty (cfg_configToml config)) as [toml|];
    destruct (nonempty (obj_get env "OPENAI_API_KEY")) as [key|];
    unfold writeJsonFile, writeFile, rename, ensureDir, bind, fs_call, ret;
    simpl; rewrite ?lookup_insert_eq; simpl;
    (eexists; split; [reflexivity|]); simpl.
  - rewrite lookup_insert_ne, lookup_delete_ne, !lookup_insert_ne,
      !lookup_insert_eq by done.
    split; [done|]. split; [done|]. split; [|done].
    intros path H1 H2 H3.
    by rewrite lookup_insert_ne, lookup_delete_ne, !lookup_insert_ne by done.
  - rewrite !lookup_insert_eq, !lookup_insert_ne by done.
    split; [done|]. split; [done|]. split; [|done].
    intros path H1 H2 H3. by rewrite !lookup_insert_ne by done.
  - rewrite lookup_insert_ne, lookup_delete_ne, !lookup_insert_ne,
      !lookup_insert_eq by done.
    split; [done|]. split; [done|]. split; [|done].
    intros path H1 H2 H3.
    by rewrite lookup_insert_ne, lookup_delete_ne, !lookup_insert_ne by done.
  - done.
Qed.

End SwitchSteps.

(** ** Default providers, export and import *)

Section ImportExport.
Import ccProvidersDb CcSwitch Invariants.
Implicit Types (t : gmap string row) (k id : string) (r : row)
  (p : provider_arg) (ps : list provider_arg).











Lemma upsert_normalised p now t t' :
  map_Forall (λ _ r, normalised r) t → upsert p now t = Some t' →
  map_Forall (λ _ r, normalised r) t'.
Proof.
  intros Hall Hup. unfold upsert, excluded in Hup.
  destruct (arg_name p) as [nm|]; [|done]. simpl in Hup.
  assert (Hs : ∀ o d, d ≠ EmptyString → str_or o d ≠ EmptyString).
  { intros [s|] d Hd; simpl; [|done]. by destruct (decide (s = EmptyString)). }
  assert (Hn : ∀ o, str_or_null o ≠ Some EmptyString).
  { intros [s|]; simpl; [|done]. by destruct (decide (s = EmptyString));
      [|congruence]. }
  destruct (t !! arg_id p); injection Hup as <-;
    (apply map_Forall_insert_2; [|done]);
    repeat split; simpl; auto.
Qed.



End ImportExport.

(** ** The routes over the database of the CC-Switch app *)

Section SiblingRoutes.
Import CcSwitch CcSwitchApp.
Local Open Scope js_scope.
Implicit Types (t : list row) (r : row) (providerId appType : string).

Lemma get_provider_None providerId appType t :
  get_provider providerId appType t = None ↔
  ∀ r, r ∈ t → ¬ (id r = providerId ∧ app_type r = appType).
Proof.
  unfold get_provider. rewrite fmap_None, list_find_None, Forall_forall.
  done.
Qed.

Lemma get_provider_Some providerId appType t r :
  get_provider providerId appType t = Some r →
  r ∈ t ∧ id r = providerId ∧ app_type r = appType.
Proof.
  unfold get_provider. intros H. apply fmap_Some in H as ([i r'] & H & ->).
  apply list_find_Some in H as (Hi & Hp & _). simpl.
  split; [by eapply list_elem_of_lookup_2|done].
Qed.

(** What the two updates leave, row by row. *)
Lemma lookup_set_current providerId appType t (i : nat) :
  set_current providerId appType t !! i =
    (λ r, if decide (app_type r = appType)
          then with_is_current (bool_decide (id r = providerId)) r
          else r) <$> t !! i.
Proof.
  unfold set_current. rewrite !list_lookup_fmap.
  destruct (t !! i) as [r|]; simpl; [|done]. f_equal.
  destruct (decide (app_type r = appType)) as [Ha|Ha]; simpl.
  - destruct (decide (id r = providerId)) as [Hi|Hi].
    + rewrite decide_True, bool_decide_eq_true_2 by done. done.
    + rewrite decide_False, bool_decide_eq_false_2 by tauto. done.
  - by rewrite decide_False by tauto.
Qed.

Lemma set_current_exact providerId appType t r0 :
  r0 ∈ t → id r0 = providerId → app_type r0 = appType →
  let t' := set_current providerId appType t in
  (∀ r', r' ∈ t' → app_type r' = appType →
         (is_current r' = true ↔ id r' = providerId)) ∧
  (∃ r', r' ∈ t' ∧ id r' = providerId ∧ app_type r' = appType ∧
         is_current r' = true) ∧
  (∀ r', r' ∈ t' → app_type r' ≠ appType → r' ∈ t) ∧
  with_is_current false <$> t' = with_is_current false <$> t.
Proof.
  intros Hin Hid Happ t'. subst t'. split; [|split; [|split]].
  - intros r' Hr' Ha. apply list_elem_of_lookup in Hr' as [i Hi].
    rewrite lookup_set_current in Hi.
    destruct (t !! i) as [r|]; simpl in Hi; [|done]. injection Hi as <-.
    destruct (decide (app_type r = appType)); simpl in *; [|done].
    by rewrite bool_decide_eq_true.
  - apply list_elem_of_lookup in Hin as [i Hi].
    exists (with_is_current true r0). split.
    + apply list_elem_of_lookup. exists i.
      rewrite lookup_set_current, Hi. simpl.
      by rewrite decide_True, bool_decide_eq_true_2.
    + done.
  - intros r' Hr' Ha. apply list_elem_of_lookup in Hr' as [i Hi].
    rewrite lookup_set_current in Hi.
    destruct (t !! i) as [r|] eqn:Hr; simpl in Hi; [|done].
    injection Hi as <-.
    destruct (decide (app_type r = appType)); simpl in *; [done|].
    by eapply list_elem_of_lookup_2.
  - apply list_eq. intros i. rewrite !list_lookup_fmap, lookup_set_current.
    destruct (t !! i) as [r|]; simpl; [|done]. f_equal.
    by destruct (decide (app_type r = appType)).
Qed.

(** The switch route of the read-only integration looks the provider up
    by id and app type. When the app type has no provider of that id
    the answer is 404 and neither the table nor the files change. When
    it has one, then in the table that the route leaves, whatever
    happens to the files, the providers of the app type that are
    current are those of that id, there is one, and the other app
    types and the other columns are as they were. *)
Theorem integration_switch_checks_app_type (HOME_DIR providerId : string)
    (app : option string) t :
  let appType := str_or app "claude" in
  let res := Integration.post_providers_switch HOME_DIR providerId app
               (Some t) in
  match get_provider providerId appType t with
  | None =>
      (∀ r, r ∈ t → ¬ (id r = providerId ∧ app_type r = appType)) ∧
      res.1 = Some t ∧
      ∀ n w, run_for n res.2 w = (w, Done (Failure 404 "Provider not found"))
  | Some _ =>
      ∃ t', res.1 = Some t' ∧
        (∀ r', r' ∈ t' → app_type r' = appType →
               (is_current r' = true ↔ id r' = providerId)) ∧
        (∃ r', r' ∈ t' ∧ id r' = providerId ∧ app_type r' = appType ∧
               is_current r' = true) ∧
        (∀ r', r' ∈ t' → app_type r' ≠ appType → r' ∈ t) ∧
        with_is_current false <$> t' = with_is_current false <$> t
  end.
Proof.
  intros appType res. subst res. unfold Integration.post_providers_switch.
  fold appType. destruct (get_provider providerId appType t) as [r0|] eqn:Hget.
  - apply get_provider_Some in Hget as (Hin & Hid & Happ).
    eexists. split; [reflexivity|].
    by apply (set_current_exact providerId appType t r0).
  - split; [by apply get_provider_None|]. done.
Qed.

(** The switch route of the first version, which is fixed to claude,
    refuses an id that claude has no provider of with 404, and a
    provider whose configuration does not parse with 400, before it
    writes anything: the table and the files stay. Otherwise the two
    updates, which run in one transaction, leave the providers of that
    id as the current providers of claude. *)
Theorem legacy_switch_refuses_before_writing (HOME_DIR providerId : string) t :
  let res := Legacy.post_switch HOME_DIR providerId (Some t) in
  match get_provider providerId "claude" t with
  | None =>
      res.1 = Some t ∧
      ∀ n w, run_for n res.2 w = (w, Done (Failure 404 "Provider not found"))
  | Some provider =>
      match settings_config provider with
      | Unparsable =>
          res.1 = Some t ∧
          ∀ n w, run_for n res.2 w =
                 (w, Done (Failure 400 "Invalid provider configuration"))
      | Parsed _ =>
          ∃ t', res.1 = Some t' ∧
            (∀ r', r' ∈ t' → app_type r' = "claude" →
                   (is_current r' = true ↔ id r' = providerId)) ∧
            (∃ r', r' ∈ t' ∧ id r' = providerId ∧ app_type r' = "claude" ∧
                   is_current r' = true) ∧
            (∀ r', r' ∈ t' → app_type r' ≠ "claude" → r' ∈ t) ∧
            with_is_current false <$> t' = with_is_current false <$> t
      end
  end.
Proof.
  intros res. subst res. unfold Legacy.post_switch.
  destruct (get_provider providerId "claude" t) as [r0|] eqn:Hget; [|done].
  destruct (settings_config r0) as [c|]; [|done].
  apply get_provider_Some in Hget as (Hin & Hid & Happ).
  eexists. split; [reflexivity|].
  by apply (set_current_exact providerId "claude" t r0).
Qed.






End SiblingRoutes.

(** ** API keys and credentials *)

Section ApiKeys.
Import apiKeysDb.
Implicit Types (t : table) (r : row) (users : gmap Z userDb.row).

Lemma fmap_id_in {A} (f : A → A) (l : list A) :
  (∀ x, x ∈ l → f x = x) → f <$> l = l.
Proof.
  induction l as [|x l IH]; intros Hf; [done|].
  rewrite fmap_cons, Hf, IH; [done| |by apply elem_of_cons; left].
  intros y Hy. apply Hf. by apply elem_of_cons; right.
Qed.

(** [validateApiKey] accepts a key only when a row holds it, that row
    is active and its user is an active user; it then answers with that
    user and that row, and touches nothing but [last_used] of that
    row. A key that it does not accept leaves the table as it is. *)
Theorem validateApiKey_accepts_active_only (apiKey : string) (now : Z)
    users t :
  match (validateApiKey apiKey now users t).2 with
  | Some v =>
      ∃ r u, r ∈ rows t ∧ api_key r = apiKey ∧ is_active r = true ∧
             users !! user_id r = Some u ∧ userDb.is_active u = true ∧
             v = {| v_id := user_id r; v_username := userDb.username u;
                    v_api_key_id := id r |} ∧
             rows (validateApiKey apiKey now users t).1 =
               (λ r', if decide (id r' = id r)
                      then with_last_used now r' else r') <$> rows t
  | None =>
      (validateApiKey apiKey now users t).1 = t ∧
      ∀ r u, r ∈ rows t → api_key r = apiKey →
             users !! user_id r = Some u →
             is_active r = false ∨ userDb.is_active u = false
  end.
Proof.
  unfold validateApiKey.
  destruct (list_find (valid apiKey users) (rows t)) as [[i r]|] eqn:Hfind.
  - apply list_find_Some in Hfind as (Hi & (Hkey & Hact & Hu) & _).
    simpl. destruct (users !! user_id r) as [u|] eqn:Hur; [|done].
    simpl in *. injection Hu as Hu. exists r, u.
    split; [by eapply list_elem_of_lookup_2|]. done.
  - apply list_find_None in Hfind. rewrite Forall_forall in Hfind.
    simpl. split; [done|]. intros r u Hr Hkey Hu.
    specialize (Hfind r Hr). unfold valid in Hfind. rewrite Hu in Hfind.
    simpl in Hfind. destruct (is_active r); [|by left].
    destruct (userDb.is_active u); [|by right]. exfalso. by apply Hfind.
Qed.

(** A call of [toggleApiKey] or [deleteApiKey] by a user for a key that
    is not a key of that user reports no change and changes nothing. *)
Theorem api_key_changes_need_owner (userId apiKeyId : Z)
    (isActive : option json) t :
  (∀ r, r ∈ rows t → id r = apiKeyId → user_id r ≠ userId) →
  toggleApiKey userId apiKeyId isActive t = (t, false) ∧
  deleteApiKey userId apiKeyId t = (t, false).
Proof.
  intros Hno.
  assert (Hnone : ¬ Exists (owned userId apiKeyId) (rows t)).
  { rewrite Exists_exists. intros (r & Hr & Hid & Hu). by apply (Hno r). }
  unfold toggleApiKey, deleteApiKey. rewrite bool_decide_eq_false_2 by done.
  destruct t as [rs n]. simpl in *. split; f_equal; f_equal.
  - apply fmap_id_in. intros r Hr. rewrite decide_False; [done|].
    intros [Hid Hu]. by apply (Hno r).
  - apply filter_all. apply Forall_forall. intros r Hr [Hid Hu].
    by apply (Hno r).
Qed.

(** Once its owner has switched a key off, or has deleted it,
    [validateApiKey] no longer accepts it. *)
Theorem revoked_api_key_is_rejected (userId apiKeyId : Z) (now : Z)
    users t r :
  wf t → r ∈ rows t → id r = apiKeyId → user_id r = userId →
  let off := toggleApiKey userId apiKeyId (Some (JBool false)) t in
  let gone := deleteApiKey userId apiKeyId t in
  off.2 = true ∧ gone.2 = true ∧
  validateApiKey (api_key r) now users off.1 = (off.1, None) ∧
  validateApiKey (api_key r) now users gone.1 = (gone.1, None).
Proof.
  intros (Hid & _ & Hkey) Hr Hi Hu off gone. subst off gone.
  assert (Hown : Exists (owned userId apiKeyId) (rows t)).
  { apply Exists_exists. by exists r. }
  assert (Huniq : ∀ r', r' ∈ rows t → api_key r' = api_key r → r' = r).
  { clear -Hkey Hr. revert Hkey Hr. generalize (rows t) as rs.
    induction rs as [|x rs IH]; intros Hnd Hr r' Hr' Hk.
    - by apply elem_of_nil in Hr.
    - rewrite fmap_cons in Hnd. apply NoDup_cons in Hnd as [Hx Hnd].
      apply elem_of_cons in Hr as [->|Hr];
        apply elem_of_cons in Hr' as [->|Hr'].
      + done.
      + exfalso. apply Hx. rewrite <- Hk. apply list_elem_of_fmap. eauto.
      + exfalso. apply Hx. rewrite Hk. apply list_elem_of_fmap. eauto.
      + by apply IH. }
  unfold toggleApiKey, deleteApiKey. simpl.
  rewrite bool_decide_eq_true_2 by done. split; [done|]. split; [done|].
  unfold validateApiKey. simpl. split.
  - destruct (list_find _ _) as [[i r']|] eqn:Hfind; [|done]. exfalso.
    apply list_find_Some in Hfind as (Hl & (Hk & Hact & _) & _).
    rewrite list_lookup_fmap in Hl.
    destruct (rows t !! i) as [r0|] eqn:Hr0; simpl in Hl; [|done].
    injection Hl as <-. apply list_elem_of_lookup_2 in Hr0.
    destruct (decide (owned userId apiKeyId r0)) as [_|Hn]; simpl in *.
    + done.
    + apply Hn. rewrite (Huniq r0 Hr0 Hk). by split.
  - destruct (list_find _ _) as [[i r']|] eqn:Hfind; [|done]. exfalso.
    apply list_find_Some in Hfind as (Hl & (Hk & _) & _).
    apply list_elem_of_lookup_2, list_elem_of_filter in Hl as [Hn Hr'].
    apply Hn. rewrite (Huniq r' Hr' Hk). by split.
Qed.

Lemma api_key_changes_need_owner_witness :
  toggleApiKey 1 2 (Some (JBool false)) Scenarios.two_keys
    = (Scenarios.two_keys, false) ∧
  deleteApiKey 1 2 Scenarios.two_keys = (Scenarios.two_keys, false).
Proof.
  apply api_key_changes_need_owner.
  apply (proj1 (Forall_forall (λ r, id r = 2%Z → user_id r ≠ 1%Z) _)).
  apply (bool_decide_unpack _). vm_compute. exact I.
Defined.

Lemma revoked_api_key_is_rejected_witness :
  (validateApiKey "ck_b" 9 Scenarios.two_users Scenarios.two_keys).2
    = Some {| v_id := 2; v_username := "bob"; v_api_key_id := 2 |} ∧
  (validateApiKey "ck_b" 9 Scenarios.two_users
     (toggleApiKey 2 2 (Some (JBool false)) Scenarios.two_keys).1).2 = None.
Proof.
  split; [vm_compute; reflexivity|].
  assert (Hwf : wf Scenarios.two_keys).
  { unfold wf. apply (bool_decide_unpack _). vm_compute. exact I. }
  destruct (revoked_api_key_is_rejected 2 2 9 Scenarios.two_users
              Scenarios.two_keys (Scenarios.api_key_of 2 2 "ck_b") Hwf)
    as (_ & _ & Hoff & _).
  - apply elem_of_cons. right. apply elem_of_cons. by left.
  - reflexivity.
  - reflexivity.
  - exact (f_equal snd Hoff).
Defined.

End ApiKeys.

Section Credentials.
Import credentialsDb.
Implicit Types (t : table) (r : row).

#[local] Instance credential_newer_first_total : Total newer_first.
Proof. intros x y. unfold newer_first. lia. Qed.

#[local] Instance credential_newer_first_trans : Transitive newer_first.
Proof. intros x y z. unfold newer_first. lia. Qed.

Lemma head_merge_sort_newest (l : list row) r :
  head (merge_sort newer_first l) = Some r →
  r ∈ l ∧ ∀ r', r' ∈ l → (created_at r' ≤ created_at r)%Z.
Proof.
  intros Hhead.
  pose proof (StronglySorted_merge_sort newer_first l) as Hs.
  pose proof (merge_sort_Permutation newer_first l) as Hp.
  destruct (merge_sort newer_first l) as [|x l'] eqn:E; [done|].
  injection Hhead as ->. split.
  - rewrite <- Hp. by apply elem_of_cons; left.
  - intros r' Hr'. rewrite <- Hp in Hr'. apply StronglySorted_inv in Hs as [_ Hall].
    apply elem_of_cons in Hr' as [->|Hr']; [lia|].
    rewrite Forall_forall in Hall. apply (Hall r' Hr').
Qed.

(** [getActiveCredential] returns the value of a credential of that
    user and type that is active and that none of them is newer than;
    it returns nothing when there is no such credential, or when the
    value of the newest is the empty string. *)
Theorem getActiveCredential_newest_active (userId : Z)
    (credentialType : string) t :
  match getActiveCredential userId credentialType t with
  | Some value =>
      value ≠ EmptyString ∧
      ∃ r, r ∈ rows t ∧ active_of userId credentialType r ∧
           credential_value r = value ∧
           ∀ r', r' ∈ rows t → active_of userId credentialType r' →
                 (created_at r' ≤ created_at r)%Z
  | None =>
      (∀ r, r ∈ rows t → ¬ active_of userId credentialType r) ∨
      ∃ r, r ∈ rows t ∧ active_of userId credentialType r ∧
           credential_value r = EmptyString ∧
           ∀ r', r' ∈ rows t → active_of userId credentialType r' →
                 (created_at r' ≤ created_at r)%Z
  end.
Proof.
  unfold getActiveCredential.
  destruct (head _) as [r|] eqn:Hhead.
  - apply head_merge_sort_newest in Hhead as [Hr Hnew].
    apply list_elem_of_filter in Hr as [Hact Hr].
    assert (Hnewest : ∀ r', r' ∈ rows t → active_of userId credentialType r' →
                            (created_at r' ≤ created_at r)%Z).
    { intros r' Hr' Hact'. apply Hnew. by apply list_elem_of_filter. }
    simpl. destruct (decide (credential_value r = EmptyString)) as [He|Hne].
    + right. by exists r.
    + split; [done|]. by exists r.
  - left. intros r Hr Hact. apply head_None in Hhead.
    assert (Hin : r ∈ merge_sort newer_first
                       (filter (active_of userId credentialType) (rows t))).
    { rewrite merge_sort_Permutation. by apply list_elem_of_filter. }
    rewrite Hhead in Hin. by apply elem_of_nil in Hin.
Qed.

End Credentials.
